(** * xrelfo: the FRR cross-reference extractor and aggregator

    A shallow embedding of [python/xrelfo.py]: the kind handlers
    ([XrefLogmsg.to_dict], [CmdElement.to_dict], [XrefInstallElement.to_dict]),
    the identity property [Xrefdata.uid], the pointer-table discovery of
    [Xrelfo.load_elf], the snapshot merge [Xrelfo.load_json] and the by-file
    view built in [main].

    Python values are represented as follows.
    - A value that lives inside the store (what [json.load] returns and what
      the handlers build) is a [json] term.  JSON objects are finite maps with
      extensional equality, so Leibniz equality on [json] is Python's [==] on
      the decoded values (dict comparison ignores key order, list comparison
      does not).  Python identifies [True] with [1] under [==], so booleans
      are read as the numbers 0 and 1.  Floating-point numbers are not
      represented.
    - The [refs] dict is iterated by [main] and by [json.dump], so it keeps
      its insertion order: it is an association list ([PyDict]).
    - A raised exception is the result [None], or an error value where the
      kind of exception matters ([load_elf_table]). *)

From Stdlib Require Import ZArith Strings.Byte.
From stdpp Require Import gmap strings list fin_maps sorting pretty.

Set Warnings "-register-all".
Local Open Scope string_scope.
Local Open Scope Z_scope.
Local Open Scope list_scope.

(** ** Values *)

Inductive json :=
  | JNull
  | JNum (z : Z)
  | JStr (s : string)
  | JArr (l : list json)
  | JObj (m : gmap string json).

Global Instance json_eq_dec : EqDecision json.
Proof.
  refine (fix go (a b : json) {struct a} : Decision (a = b) :=
    let _ : EqDecision json := @go in
    match a, b with
    | JNull, JNull => left _
    | JNum x, JNum y => cast_if (decide (x = y))
    | JStr x, JStr y => cast_if (decide (x = y))
    | JArr x, JArr y => cast_if (decide (x = y))
    | JObj x, JObj y => cast_if (decide (x = y))
    | _, _ => right _
    end); abstract congruence.
Defined.

(** ** Insertion-ordered dictionaries

    A Python [dict] as the list of its items in insertion order.  [get] is
    [d.get(k)], [set] is [d[k] = v] (an existing key keeps its position, a
    new key goes last), [setdefault] is [d.setdefault(k, dflt)] and returns
    the value found together with the dictionary. *)

Module PyDict.
Section ops.
Context {K V : Type} `{EqDecision K}.

Fixpoint get (k : K) (d : list (K * V)) : option V :=
  match d with
  | [] => None
  | (k', v) :: d' => if decide (k = k') then Some v else get k d'
  end.

Fixpoint set (k : K) (v : V) (d : list (K * V)) : list (K * V) :=
  match d with
  | [] => [(k, v)]
  | (k', v') :: d' =>
      if decide (k = k') then (k, v) :: d' else (k', v') :: set k v d'
  end.

Definition setdefault (k : K) (dflt : V) (d : list (K * V))
  : V * list (K * V) :=
  match get k d with
  | Some v => (v, d)
  | None => (dflt, d ++ [(k, dflt)])
  end.

Definition keys (d : list (K * V)) : list K := d.*1.

(** Python's [d1 == d2] on two dictionaries: the same keys with equal
    values, whatever the insertion order. *)
Definition equiv (d1 d2 : list (K * V)) : Prop :=
  ∀ k, get k d1 = get k d2.

End ops.
End PyDict.

(** ** The aggregate store

    [Xrelfo] is a [dict] subclass created as [{'refs': {}}].  [refs] is the
    value under the key ['refs'] (identity, [None] when absent, to the list
    of occurrence descriptors); [rest] holds every other top-level key, of
    which the handlers only ever create ['cli']. *)

Abbreviation uid_t := (option string) (only parsing).

Record Xrelfo := mkXrelfo {
  refs : list (uid_t * list json);
  rest : gmap string json;
}.

Definition Xrelfo_init : Xrelfo := {| refs := []; rest := ∅ |}.

(** The document [json.load(fd)] returns for a serialized snapshot: the items
    of [data['refs']] in document order (JSON keys are strings) and the other
    top-level keys of the document. *)
Record document := mkDocument {
  doc_refs : list (string * list json);
  doc_rest : gmap string json;
}.

(** ** [Xrelfo.load_json] *)

(** One round of the inner loop:
    [if item in myitems: continue] / [myitems.append(item)]. *)
Definition append_unless_present (myitems : list json) (item : json) : list json :=
  if decide (item ∈ myitems) then myitems else myitems ++ [item].

Definition merge_items (myitems items : list json) : list json :=
  foldl append_unless_present myitems items.

(** One round of the outer loop.  [myitems] is the list object stored in the
    dictionary, so the appends of the inner loop show in [self['refs'][uid]]. *)
Definition load_json_entry (self_refs : list (uid_t * list json))
    (entry : string * list json) : list (uid_t * list json) :=
  let '(uid, items) := entry in
  let '(myitems, self_refs') := PyDict.setdefault (Some uid) [] self_refs in
  PyDict.set (Some uid) (merge_items myitems items) self_refs'.

Definition load_json (self : Xrelfo) (data : document) : Xrelfo :=
  {| refs := foldl load_json_entry (refs self) (doc_refs data);
     rest := rest self |}.

(** ** Sorting

    [sorted(xs, key=...)] is a stable sort; for a total preorder on the keys
    its result is determined by stability, so an insertion sort that puts an
    element in front of the first one that is not smaller stands for it. *)

Fixpoint insert_stable {A} (le : A → A → bool) (x : A) (l : list A) : list A :=
  match l with
  | [] => [x]
  | y :: l' => if le x y then x :: y :: l' else y :: insert_stable le x l'
  end.

Definition stable_sort {A} (le : A → A → bool) (l : list A) : list A :=
  foldr (insert_stable le) [] l.

(** A loop whose body may raise. *)
Fixpoint foldlM {A B} (f : A → B → option A) (a : A) (l : list B) : option A :=
  match l with
  | [] => Some a
  | x :: l' => a' ← f a x; foldlM f a' l'
  end.

(** ** Serialization: [json.dump(out, fd, indent=2, sort_keys=True)]

    Read back by [json.load], a dumped value of type [json] is itself, so
    only the [refs] dictionary needs care: its items are sorted by key, a
    [None] key is written as ["null"], and sorting a [None] key against a
    string raises [TypeError]. *)

Definition dump_key (k : uid_t) : string :=
  match k with Some s => s | None => "null" end.

Definition key_leb (a b : string * list json) : bool := String.leb a.1 b.1.

Definition json_dump (out : Xrelfo) : option document :=
  if decide (None ∈ PyDict.keys (refs out) ∧ (2 ≤ length (refs out))%nat)
  then None
  else Some {| doc_refs :=
                 stable_sort key_leb (prod_map dump_key id <$> refs out);
               doc_rest := rest out |}.

(** ** Records decoded from the binary *)

(** The fields of [struct xref] every record starts with, and the address
    the record was read at. *)
Record xref_fields := mk_xref_fields {
  addr : Z;
  typ : Z;
  file : string;
  line : Z;
  func : string;
}.

(** [dict([(i, getattr(self.xref, i)) for i in ['file', 'line', 'func']])] *)
Definition origin_dict (x : xref_fields) : gmap string json :=
  <["func" := JStr (func x)]>
    (<["line" := JNum (line x)]> (<["file" := JStr (file x)]> ∅)).

Module Xrefdata.

(** [xref] is the owning record, set by [ref_from] when [Xref.__init__] finds
    a non-null [xrefdata] pointer; [_uid] is the (zeroed) field of the binary. *)
Record t := mk {
  addr : Z;
  _uid : string;
  hashstr : option string;
  hashu32_0 : Z;
  hashu32_1 : Z;
  xref : xref_fields;
}.

Section with_uidhash.
(** The hash [uidhash] that xrelfo.py imports from [clippy.uidhash]. *)
Variable uidhash : string → string → Z → Z → string.

Definition uid (self : t) : uid_t :=
  match hashstr self with
  | None => None
  | Some h => Some (uidhash (file (xref self)) h (hashu32_0 self) (hashu32_1 self))
  end.

End with_uidhash.
End Xrefdata.

Module Xref.

Record t := mk {
  fields : xref_fields;
  xrefdata : option Xrefdata.t;
}.

End Xref.

(** [jsobj.setdefault(k, []).append(x)] *)
Definition setdefault_append (k : string) (x : json) (jsobj : gmap string json)
  : option (gmap string json) :=
  match jsobj !! k with
  | None => Some (<[k := JArr [x]]> jsobj)
  | Some (JArr l) => Some (<[k := JArr (l ++ [x])]> jsobj)
  | Some _ => None
  end.

Module XrefLogmsg.

Record t := mk {
  xref : Xref.t;
  priority : Z;
  ec : Z;
  fmtstring : string;
}.

(** The descriptor [to_dict] builds before it touches the store. *)
Definition jsobj (self : t) : option (gmap string json) :=
  let jsobj := origin_dict (Xref.fields (xref self)) in
  let jsobj := if decide (ec self ≠ 0) then <["ec" := JNum (ec self)]> jsobj
               else jsobj in
  let jsobj := <["fmtstring" := JStr (fmtstring self)]> jsobj in
  let jsobj := <["priority" := JNum (Z.land (priority self) 7)]> jsobj in
  let jsobj := <["type" := JStr "logmsg"]> jsobj in
  jsobj ← (if decide (Z.land (priority self) 0x10 ≠ 0)
           then setdefault_append "flags" (JStr "errno") jsobj
           else Some jsobj);
  if decide (Z.land (priority self) 0x20 ≠ 0)
  then setdefault_append "flags" (JStr "getaddrinfo") jsobj
  else Some jsobj.

Section with_uidhash.
Variable uidhash : string → string → Z → Z → string.

(** [xrelfo['refs'].setdefault(self.xref.xrefdata.uid, []).append(jsobj)];
    a null [xrefdata] raises [AttributeError]. *)
Definition to_dict (self : t) (xrelfo : Xrelfo) : option Xrelfo :=
  jsobj ← jsobj self;
  xrefdata ← Xref.xrefdata (xref self);
  let uid := Xrefdata.uid uidhash xrefdata in
  let '(myitems, refs') := PyDict.setdefault uid [] (refs xrelfo) in
  Some {| refs := PyDict.set uid (myitems ++ [JObj jsobj]) refs';
          rest := rest xrelfo |}.

End with_uidhash.
End XrefLogmsg.

(** [d.setdefault(k, {})] read as a dictionary; [None] when the value found
    is not one (the next method call on it raises [AttributeError]). *)
Definition setdefault_dict (k : string) (d : gmap string json)
  : option (gmap string json) :=
  match d !! k with
  | None => Some ∅
  | Some (JObj o) => Some o
  | Some _ => None
  end.

Module CmdElement.

(** [cmd_string] is the field [string]; [dict_nodes] is the list created
    empty by [__init__]. *)
Record t := mk {
  xref : Xref.t;
  name : string;
  cmd_string : string;
  doc : string;
  attr : Z;
  dict_nodes : list json;
}.

(** [self.cmd_attrs.get(self.attr, self.attr)] with
    [cmd_attrs = { 0: None, 1: 'deprecated', 2: 'hidden'}]. *)
Definition cmd_attrs_get (a : Z) : json :=
  if decide (a = 0) then JNull
  else if decide (a = 1) then JStr "deprecated"
  else if decide (a = 2) then JStr "hidden"
  else JNum a.

(** [jsobj['nodes']] becomes the list object [self.dict_nodes]; [to_dict]
    runs once for each decoded record, right after [__init__], and the
    record is not read again afterwards, so the list is written by value. *)
Definition to_dict (self : t) (xrelfo : Xrelfo) : option Xrelfo :=
  cli ← setdefault_dict "cli" (rest xrelfo);
  jsobj ← setdefault_dict (name self) cli;
  let jsobj :=
    <["nodes" := JArr (dict_nodes self)]>
      (<["attr" := cmd_attrs_get (attr self)]>
         (<["doc" := JStr (doc self)]>
            (<["string" := JStr (cmd_string self)]> jsobj))) in
  let jsobj := if decide (jsobj !! "attr" = Some JNull)
               then delete "attr" jsobj else jsobj in
  let jsobj := <["defun" := JObj (origin_dict (Xref.fields (xref self)))]> jsobj in
  Some {| refs := refs xrelfo;
          rest := <["cli" := JObj (<[name self := JObj jsobj]> cli)]> (rest xrelfo) |}.

End CmdElement.

Module XrefInstallElement.

Record t := mk {
  xref : Xref.t;
  cmd_element : CmdElement.t;
  node_type : Z;
}.

Definition to_dict (self : t) (xrelfo : Xrelfo) : option Xrelfo :=
  cli ← setdefault_dict "cli" (rest xrelfo);
  jsobj ← setdefault_dict (CmdElement.name (cmd_element self)) cli;
  jsobj ← setdefault_append "nodes"
    (JObj (<["install" := JObj (origin_dict (Xref.fields (xref self)))]>
             (<["node" := JNum (node_type self)]> ∅))) jsobj;
  Some {| refs := refs xrelfo;
          rest := <["cli" := JObj (<[CmdElement.name (cmd_element self)
                                     := JObj jsobj]> cli)]> (rest xrelfo) |}.

End XrefInstallElement.

(** ** [Xrelfo.load_elf] *)

Definition XREFT_THREADSCHED : Z := 0x100.
Definition XREFT_LOGMSG : Z := 0x200.
Definition XREFT_DEFUN : Z := 0x300.
Definition XREFT_INSTALL_ELEMENT : Z := 0x301.

(** What [ptr.xref.container()] returns when it is not [None]: the record
    read again with the struct registered for its [typ] in
    [Xref.containers]. *)
Inductive container :=
  | XrefThreadSched (x : Xref.t)
  | XrefLogmsg (c : XrefLogmsg.t)
  | CmdElement (c : CmdElement.t)
  | XrefInstallElement (c : XrefInstallElement.t).

(** The [typ] each struct is registered under in [Xref.containers]. *)
Definition container_typ (c : container) : Z :=
  match c with
  | XrefThreadSched _ => XREFT_THREADSCHED
  | XrefLogmsg _ => XREFT_LOGMSG
  | CmdElement _ => XREFT_DEFUN
  | XrefInstallElement _ => XREFT_INSTALL_ELEMENT
  end.

Section with_uidhash.
Variable uidhash : string → string → Z → Z → string.

(** [container.to_dict(self)]; [XrefThreadSched] inherits the empty
    [XrelfoJson.to_dict]. *)
Definition container_to_dict (c : container) (self : Xrelfo) : option Xrelfo :=
  match c with
  | XrefThreadSched _ => Some self
  | XrefLogmsg c => XrefLogmsg.to_dict uidhash c self
  | CmdElement c => CmdElement.to_dict c self
  | XrefInstallElement c => XrefInstallElement.to_dict c self
  end.

(** The loop [for ptr in ptrs] over the containers of the pointer table, a
    record of unknown [typ] being [None]. *)
Definition load_elf_ptrs (self : Xrelfo) (ptrs : list (option container))
  : option Xrelfo :=
  foldlM (λ self c, match c with
                    | None => Some self
                    | Some c => container_to_dict c self
                    end) self ptrs.

End with_uidhash.

(** *** Locating the pointer table

    The accessors of [clippy.elf] the discovery uses, as data: a note is the
    byte range [find_note] returns, [getitem] is [edf._elffile[note]]. *)

Record ELFNote := mk_note {
  start : Z;
  stop : Z;
}.

Record ELFSection := mk_section {
  sh_name : string;
  sh_data : list byte;
}.

Record ELFFile := mk_elffile {
  find_note : string → string → option ELFNote;
  bigendian : bool;
  elfclass : Z;
  getitem : ELFNote → list byte;
}.

Record ELFDissectFile := mk_edf {
  _elffile : ELFFile;
  get_section : string → option ELFSection;
}.

(** An unsigned integer from its bytes, least significant byte first. *)
Fixpoint le_uint (bs : list byte) : Z :=
  match bs with
  | [] => 0
  | b :: bs' => Z.of_N (Byte.to_N b) + 256 * le_uint bs'
  end.

(** [endian] is ['>'] ([true]) or ['<'] ([false]). *)
Definition unpack_uint (endian : bool) (bs : list byte) : Z :=
  if endian then le_uint (rev bs) else le_uint bs.

(** [struct.unpack(endian + 'QQ', mem)] for [w = 8] and
    [struct.unpack(endian + 'II', mem)] for [w = 4]: two unsigned integers
    of [w] bytes each, [struct.error] unless [mem] has exactly [2 * w]
    bytes. *)
Definition struct_unpack2 (endian : bool) (w : nat) (mem : list byte)
  : option (Z * Z) :=
  if decide (length mem = (2 * w)%nat)
  then Some (unpack_uint endian (take w mem), unpack_uint endian (drop w mem))
  else None.

(** Where [ptrs] comes from. *)
Inductive ptr_table :=
  | iter_data_slice (start_ end_ : Z)
  | iter_data_section (xrefarray : ELFSection).

Inductive load_error :=
  | struct_error
  | ValueError (msg : string).

Definition load_elf_table (edf : ELFDissectFile) : load_error + ptr_table :=
  match find_note (_elffile edf) "FRRouting" "XREF" with
  | Some note =>
      let endian := bigendian (_elffile edf) in
      let mem := getitem (_elffile edf) note in
      if decide (elfclass (_elffile edf) = 64) then
        match struct_unpack2 endian 8 mem with
        | Some (start_, end_) =>
            inr (iter_data_slice (start_ + start note) (end_ + (start note + 8)))
        | None => inl struct_error
        end
      else
        match struct_unpack2 endian 4 mem with
        | Some (start_, end_) =>
            inr (iter_data_slice (start_ + start note) (end_ + (start note + 4)))
        | None => inl struct_error
        end
  | None =>
      match get_section edf "xref_array" with
      | None => inl (ValueError "file has neither xref note nor xref_array section")
      | Some xrefarray => inr (iter_data_section xrefarray)
      end
  end.

(** The bytes of an unsigned integer, for stating what a payload holds. *)
Definition byte_of_Z (z : Z) : byte :=
  match Byte.of_N (Z.to_N z) with Some b => b | None => Byte.x00 end.

Fixpoint le_bytes (w : nat) (v : Z) : list byte :=
  match w with
  | O => []
  | S w' => byte_of_Z (v mod 256) :: le_bytes w' (v / 256)
  end.

Definition pack_uint (endian : bool) (w : nat) (v : Z) : list byte :=
  if endian then rev (le_bytes w v) else le_bytes w v.

(** ** The by-file view of [main] *)

(** The keys a dictionary accepts among the values of a snapshot. *)
Definition hashable (v : json) : bool :=
  match v with
  | JNull | JNum _ | JStr _ => true
  | JArr _ | JObj _ => false
  end.

(** The body of the inner loop: [filearray = outbyfile.setdefault(loc['file'],
    [])], [loc = dict(loc)], [del loc['file']], [filearray.append(loc)]. *)
Definition outbyfile_add (outbyfile : list (json * list json)) (loc : json)
  : option (list (json * list json)) :=
  match loc with
  | JObj m =>
      f ← m !! "file";
      if hashable f then
        let '(filearray, outbyfile') := PyDict.setdefault f [] outbyfile in
        Some (PyDict.set f (filearray ++ [JObj (delete "file" m)]) outbyfile')
      else None
  | _ => None
  end.

Definition outbyfile_collect (refs : list (uid_t * list json))
  : option (list (json * list json)) :=
  foldlM (λ outbyfile '(uid, locs), foldlM outbyfile_add outbyfile locs) [] refs.

(** [lambda x: x['line']]: the value under ['line'], whatever it is; [None]
    is the [KeyError] of a descriptor without that key. *)
Definition line_key (x : json) : option json :=
  match x with
  | JObj m => m !! "line"
  | _ => None
  end.

(** [a < b] as Python evaluates it on the values of a document; [None] is
    the [TypeError] of operands that do not compare.  Numbers compare with
    numbers, strings with strings, and lists with lists by their first
    unequal items (a list is smaller than the lists it is a proper prefix
    of); [None] and dictionaries compare with nothing. *)
Fixpoint py_lt (a b : json) {struct a} : option bool :=
  match a, b with
  | JNum x, JNum y => Some (x <? y)
  | JStr x, JStr y => Some (String.ltb x y)
  | JArr xs, JArr ys =>
      (fix go (xs ys : list json) {struct xs} : option bool :=
         match xs, ys with
         | x :: xs', y :: ys' =>
             if decide (x = y) then go xs' ys' else py_lt x y
         | [], _ :: _ => Some true
         | _, [] => Some false
         end) xs ys
  | _, _ => None
  end.

(** [sorted] on a list decorated with its keys.  The sort is stable and asks
    only [<] of the keys; it is written as an insertion from the right, where
    an element goes behind the elements whose key is smaller than its own.
    A comparison that raises ends the sort; a list of one element is not
    compared at all. *)
Fixpoint insert_by_key {A} (x : json * A) (l : list (json * A))
  : option (list (json * A)) :=
  match l with
  | [] => Some [x]
  | y :: l' =>
      lt ← py_lt y.1 x.1;
      if lt : bool then l'' ← insert_by_key x l'; Some (y :: l'')
      else Some (x :: y :: l')
  end.

Definition sorted_by_key {A} (l : list (json * A)) : option (list (json * A)) :=
  foldr (λ x acc, acc ← acc; insert_by_key x acc) (Some []) l.

Definition line_leb (a b : Z * json) : bool := a.1 <=? b.1.

(** [sorted(l, key=lambda x: x['line'])]: decorate with the key, sort on the
    key alone, undecorate. *)
Definition sorted_by_line (l : list json) : option (list json) :=
  ks ← mapM line_key l;
  l' ← sorted_by_key (zip ks l);
  Some (l'.*2).

Definition by_file (refs : list (uid_t * list json))
  : option (list (json * list json)) :=
  outbyfile ← outbyfile_collect refs;
  mapM (λ '(k, l), l' ← sorted_by_line l; Some (k, l')) outbyfile.

(** Every occurrence of [refs], in the order the loops of [main] visit them. *)
Definition occurrences (refs : list (uid_t * list json)) : list json :=
  concat (refs.*2).

(** ** Notions used by the statements *)

(** The occurrences a snapshot lists under the identity [u], in document
    order. *)
Definition items_for (u : string) (es : list (string * list json)) : list json :=
  concat ((filter (λ e, e.1 = u) es).*2).

(** [e] is already in the dictionary: merging it again changes nothing. *)
Definition covers (d : list (uid_t * list json)) (e : string * list json) : Prop :=
  ∃ l, PyDict.get (Some e.1) d = Some l ∧ ∀ x, x ∈ e.2 → x ∈ l.

(** The flags a descriptor lists (none when it has no ['flags'] key). *)
Definition flags_of (jsobj : gmap string json) : list json :=
  match jsobj !! "flags" with Some (JArr l) => l | _ => [] end.

(** The descriptor before the flags are looked at. *)
Definition jsobj_base (self : XrefLogmsg.t) : gmap string json :=
  <["type" := JStr "logmsg"]>
    (<["priority" := JNum (Z.land (XrefLogmsg.priority self) 7)]>
       (<["fmtstring" := JStr (XrefLogmsg.fmtstring self)]>
          (if decide (XrefLogmsg.ec self ≠ 0)
           then <["ec" := JNum (XrefLogmsg.ec self)]>
                  (origin_dict (Xref.fields (XrefLogmsg.xref self)))
           else origin_dict (Xref.fields (XrefLogmsg.xref self))))).

(** The file an occurrence is filed under, the occurrence without its
    ['file'] key, and its line. *)
Definition file_of (x : json) : option json :=
  match x with JObj m => m !! "file" | _ => None end.

Definition strip_file (x : json) : json :=
  match x with JObj m => JObj (delete "file" m) | _ => x end.

(** The line number an occurrence descriptor records (0 when it records
    none). *)
Definition line_of (x : json) : Z :=
  match x with
  | JObj m => match m !! "line" with Some (JNum n) => n | _ => 0 end
  | _ => 0
  end.

Definition line_of_leb (a b : json) : bool := line_of a <=? line_of b.

(** An occurrence descriptor as the data model has it: a dictionary with a
    file name and a line number. *)
Definition occurrence_ok (x : json) : Prop :=
  ∃ m f n, x = JObj m ∧ m !! "file" = Some (JStr f) ∧ m !! "line" = Some (JNum n).

(** What the by-file view is to list under [f]: the occurrences of that
    file, in the order [main] visits them, without their ['file'] key. *)
Definition expected_under (f : json) (locs : list json) : list json :=
  strip_file <$> filter (λ x, file_of x = Some f) locs.

Abbreviation has_line :=
  (λ x : json, line_key x = Some (JNum (line_of x))) (only parsing).

(** ** Sample inputs

    [sample_uidhash] stands for the hash of [clippy.uidhash] where a closed
    example needs one: it only joins its arguments.  No statement below
    depends on which function it is. *)

Definition sample_uidhash (file hashstr : string) (hashu32_0 hashu32_1 : Z)
  : string :=
  file +:+ ":" +:+ hashstr.

Definition sample_logmsg : XrefLogmsg.t :=
  let fields := mk_xref_fields 0x4000 XREFT_LOGMSG "lib/zlog.c" 42 "zlog_test" in
  XrefLogmsg.mk
    (Xref.mk fields
       (Some (Xrefdata.mk 0x5000 "" (Some "test %d") 7 9 fields)))
    0x16 0 "test %d".

Definition sample_occurrence (file : string) (line k : Z) : json :=
  JObj (<["k" := JNum k]>
          (<["line" := JNum line]> (<["file" := JStr file]> ∅))).

Definition sample_defun : CmdElement.t :=
  CmdElement.mk
    (Xref.mk (mk_xref_fields 0x6000 XREFT_DEFUN "lib/command.c" 10 "show_version")
             None)
    "show version" "show version" "Show version information" 0 [].

Definition sample_install : XrefInstallElement.t :=
  XrefInstallElement.mk
    (Xref.mk (mk_xref_fields 0x7000 XREFT_INSTALL_ELEMENT "lib/command.c" 99
                "cmd_init")
             None)
    sample_defun 3.

(** [xrelfo['cli'][name]], when it is there and is a dictionary. *)
Definition cli_descriptor (xrelfo : Xrelfo) (name : string)
  : option (gmap string json) :=
  match rest xrelfo !! "cli" with
  | Some (JObj cli) =>
      match cli !! name with Some (JObj jsobj) => Some jsobj | _ => None end
  | _ => None
  end.

(** The entry an installation adds to the list of nodes. *)
Definition install_entry (self : XrefInstallElement.t) : json :=
  JObj (<["install" := JObj (origin_dict (Xref.fields (XrefInstallElement.xref self)))]>
          (<["node" := JNum (XrefInstallElement.node_type self)]> ∅)).

(** ** Notions used by the further properties *)

Definition is_dict (v : json) : bool :=
  match v with JObj _ => true | _ => false end.

(** The records of a pointer table that have a [to_dict] of their own. *)
Definition contributes (p : option container) : bool :=
  match p with
  | Some (XrefLogmsg _) | Some (CmdElement _) | Some (XrefInstallElement _) => true
  | Some (XrefThreadSched _) | None => false
  end.

(** ** The consistency report of [main]

    [strs = set([i['fmtstring'] for i in v])]: the value of every occurrence
    under ['fmtstring'], which has to be there and to be hashable. *)
Definition fmtstring_of (i : json) : option json :=
  match i with
  | JObj m => s ← m !! "fmtstring"; if hashable s then Some s else None
  | _ => None
  end.

(** The loop over [refs.items()]: the identities it prints, in order, and
    whether it ran to its end ([false]: an exception stopped it; what was
    printed before stays printed).  [len(strs)] is the number of different
    values. *)
Fixpoint report_loop (refs : list (uid_t * list json)) : list uid_t * bool :=
  match refs with
  | [] => ([], true)
  | (k, v) :: refs' =>
      match mapM fmtstring_of v with
      | None => ([], false)
      | Some strs =>
          let '(printed, completed) := report_loop refs' in
          ((if decide (length (remove_dups strs) ≠ 1%nat) then [k] else [])
             ++ printed,
           completed)
      end
  end.

(** All occurrences of a list, and there is at least one, carry the same
    format string. *)
Definition one_fmtstring (v : list json) : Prop :=
  ∃ s, v ≠ [] ∧ Forall (λ i, fmtstring_of i = Some s) v.

Global Instance one_fmtstring_dec v : Decision (one_fmtstring v).
Proof.
  destruct v as [|i v]; [right; by intros (s & Hne & _)|].
  destruct (fmtstring_of i) as [s|] eqn:Hi.
  - destruct (decide (Forall (λ j, fmtstring_of j = Some s) v)) as [Hv|Hv].
    + left. exists s. split; [done|]. by constructor.
    + right. intros (s' & _ & Hall). apply Forall_cons in Hall as [Hs Hall].
      rewrite Hi in Hs. injection Hs as ->. done.
  - right. intros (s' & _ & Hall). apply Forall_cons in Hall as [Hs _].
    congruence.
Defined.

(** ** The format checks of [XrefLogmsg]

    *** Regular expressions

    The patterns of [XrefLogmsg.regexes] use character classes, literals,
    sequence, alternation, [?] and [+]; groups do not change what matches.
    [matches r w]: the whole of [w] is a match of [r].  [rex_search] is
    [rex.search(s)] read as a truth value: [match_prefix] looks for a match
    that starts the text (all a pattern anchored with [^] can have, there is
    no [re.MULTILINE]), [search] for one that starts anywhere; both work by
    derivatives.  Texts are sequences of bytes (UTF-8); no byte of a
    character outside ASCII equals an ASCII byte. *)

Inductive regex :=
  | Void
  | Eps
  | Chars (p : Ascii.ascii → bool)
  | Cat (r1 r2 : regex)
  | Alt (r1 r2 : regex)
  | Opt (r : regex)
  | Plus (r : regex).

Inductive matches : regex → list Ascii.ascii → Prop :=
  | matches_Eps : matches Eps []
  | matches_Chars p c : p c = true → matches (Chars p) [c]
  | matches_Cat r1 r2 w1 w2 :
      matches r1 w1 → matches r2 w2 → matches (Cat r1 r2) (w1 ++ w2)
  | matches_Alt_l r1 r2 w : matches r1 w → matches (Alt r1 r2) w
  | matches_Alt_r r1 r2 w : matches r2 w → matches (Alt r1 r2) w
  | matches_Opt_none r : matches (Opt r) []
  | matches_Opt_some r w : matches r w → matches (Opt r) w
  | matches_Plus_one r w : matches r w → matches (Plus r) w
  | matches_Plus_more r w1 w2 :
      matches r w1 → matches (Plus r) w2 → matches (Plus r) (w1 ++ w2).

Fixpoint nullable (r : regex) : bool :=
  match r with
  | Void | Chars _ => false
  | Eps | Opt _ => true
  | Cat r1 r2 => nullable r1 && nullable r2
  | Alt r1 r2 => nullable r1 || nullable r2
  | Plus r => nullable r
  end.

Fixpoint deriv (c : Ascii.ascii) (r : regex) : regex :=
  match r with
  | Void | Eps => Void
  | Chars p => if p c then Eps else Void
  | Cat r1 r2 =>
      Alt (Cat (deriv c r1) r2) (if nullable r1 then deriv c r2 else Void)
  | Alt r1 r2 => Alt (deriv c r1) (deriv c r2)
  | Opt r => deriv c r
  | Plus r => Cat (deriv c r) (Opt (Plus r))
  end.

Fixpoint match_prefix (r : regex) (s : list Ascii.ascii) : bool :=
  nullable r
  || match s with
     | [] => false
     | c :: s' => match_prefix (deriv c r) s'
     end.

Fixpoint search (r : regex) (s : list Ascii.ascii) : bool :=
  match_prefix r s
  || match s with
     | [] => false
     | _ :: s' => search r s'
     end.

(** A compiled pattern: whether it starts with [^], and the rest. *)
Record pattern := mk_pattern {
  anchored : bool;
  body : regex;
}.

Definition rex_search (rex : pattern) (s : string) : bool :=
  if anchored rex then match_prefix (body rex) (String.list_ascii_of_string s)
  else search (body rex) (String.list_ascii_of_string s).

(** The lower-case letter of an ASCII capital, any other byte unchanged. *)
Definition ascii_lower (c : Ascii.ascii) : Ascii.ascii :=
  let n := Ascii.N_of_ascii c in
  if ((65 <=? n)%N && (n <=? 90)%N)%bool then Ascii.ascii_of_N (n + 32) else c.

(** A literal, and a literal under [re.I]. *)
Definition lit (s : string) : regex :=
  foldr (λ x r, Cat (Chars (Ascii.eqb x)) r) Eps (String.list_ascii_of_string s).

Definition lit_nocase (s : string) : regex :=
  foldr (λ x r, Cat (Chars (λ c, Ascii.eqb (ascii_lower c) (ascii_lower x))) r)
    Eps (String.list_ascii_of_string s).

(** The bytes of a line feed, a tab and a double quote. *)
Definition chr_newline : Ascii.ascii := Ascii.ascii_of_nat 10.
Definition chr_tab : Ascii.ascii := Ascii.ascii_of_nat 9.
Definition chr_quote : Ascii.ascii := Ascii.ascii_of_nat 34.

Definition is_tab_or_newline (c : Ascii.ascii) : bool :=
  (Ascii.eqb c chr_newline || Ascii.eqb c chr_tab)%bool.

(** [re.compile(r'([\n\t]+)')] *)
Definition rex_tab_newline : pattern :=
  mk_pattern false (Plus (Chars is_tab_or_newline)).

(** [re.compile(r'^((?:warn(?:ing)?|error)(?:: )?)', re.I)] *)
Definition rex_severity : pattern :=
  mk_pattern true
    (Cat (Alt (Cat (lit_nocase "warn") (Opt (lit_nocase "ing")))
              (lit_nocase "error"))
         (Opt (lit ": "))).

Definition XrefLogmsg_regexes : list (pattern * string) :=
  [(rex_tab_newline, "error: log message contains tab or newline");
   (rex_severity, "warning: log message starts with severity")].

(** *** [XrefLogmsg.check], [Xref.check], [Xrelfo.check] *)

Section lint.
(** How a finding shows the format string: [repr(self.fmtstring)[1:-1]], or
    on a terminal the pieces of [rex.split] with the matches highlighted.
    The rendering is left open; which findings there are does not depend
    on it. *)
Variable excerpt : bool → pattern → string → string.

(** [_warn_fmt]: the location and the line
    ['%s:%d: %s (in %s())\n' % (file, line, text, func)]. *)
Definition _warn_fmt (x : xref_fields) (text : string)
  : (string * Z) * string :=
  ((file x, line x),
   file x +:+ ":" +:+ pretty (line x) +:+ ": " +:+ text
     +:+ " (in " +:+ func x +:+ "())" +:+ String chr_newline EmptyString).

(** [wopt] is [args.Wlog_format], [isatty] is [sys.stderr.isatty()]. *)
Definition XrefLogmsg_check (self : XrefLogmsg.t) (wopt isatty : bool)
  : list ((string * Z) * string) :=
  if wopt then
    omap (λ '(rex, msg),
            if rex_search rex (XrefLogmsg.fmtstring self)
            then Some (_warn_fmt (Xref.fields (XrefLogmsg.xref self))
                         (msg +:+ ": " +:+ String chr_quote EmptyString
                            +:+ excerpt isatty rex (XrefLogmsg.fmtstring self)
                            +:+ String chr_quote EmptyString))
            else None)
         XrefLogmsg_regexes
  else [].

(** [Xref.check] passes on to the container; only [XrefLogmsg] has a
    [check] that yields anything. *)
Definition Xref_check (c : option container) (wopt isatty : bool)
  : list ((string * Z) * string) :=
  match c with
  | Some (XrefLogmsg c) => XrefLogmsg_check c wopt isatty
  | _ => []
  end.

(** [Xrelfo.check] over the records [load_elf] has collected in [_xrefs]. *)
Definition Xrelfo_check (_xrefs : list (option container)) (wopt isatty : bool)
  : list ((string * Z) * string) :=
  _xrefs ≫= (λ c, Xref_check c wopt isatty).

(** [a < b] on the tuples [((file, line), text)]. *)
Definition finding_ltb (a b : (string * Z) * string) : bool :=
  if decide (a.1.1 = b.1.1) then
    if decide (a.1.2 = b.1.2) then String.ltb a.2 b.2
    else a.1.2 <? b.1.2
  else String.ltb a.1.1 b.1.1.

Definition finding_leb (a b : (string * Z) * string) : bool :=
  negb (finding_ltb b a).

(** [checks = sorted(xrelfo.check(args))] in [main], and what is written to
    [sys.stderr]: [''.join([c[-1] for c in checks])]. *)
Definition sorted_checks (_xrefs : list (option container)) (wopt isatty : bool)
  : list ((string * Z) * string) :=
  stable_sort finding_leb (Xrelfo_check _xrefs wopt isatty).

Definition main_checks (_xrefs : list (option container)) (wopt isatty : bool)
  : string :=
  foldr String.append EmptyString (sorted_checks _xrefs wopt isatty).*2.

End lint.

(** The text starts with [prefix], letter case ignored. *)
Definition starts_with_nocase (prefix s : string) : Prop :=
  ascii_lower <$> take (String.length prefix) (String.list_ascii_of_string s)
  = ascii_lower <$> String.list_ascii_of_string prefix.

Global Instance starts_with_nocase_dec prefix s :
  Decision (starts_with_nocase prefix s).
Proof. unfold starts_with_nocase. apply _. Defined.

(** ** [Xrelfo.load_file]: which file is read, and as what

    File names and file contents are sequences of bytes.  [os.path.split]
    and [os.path.join] are the functions of [posixpath]; [open] is the
    lookup in [fs], [None] when the file cannot be opened ([OSError]). *)

Definition chr_slash : Ascii.ascii := Ascii.ascii_of_nat 47.

Definition chars (s : string) : list Ascii.ascii := String.list_ascii_of_string s.

Fixpoint take_until_slash (l : list Ascii.ascii) : list Ascii.ascii :=
  match l with
  | [] => []
  | c :: l' => if Ascii.eqb c chr_slash then [] else c :: take_until_slash l'
  end.

Fixpoint drop_until_slash (l : list Ascii.ascii) : list Ascii.ascii :=
  match l with
  | [] => []
  | c :: l' => if Ascii.eqb c chr_slash then l else drop_until_slash l'
  end.

Fixpoint drop_slashes (l : list Ascii.ascii) : list Ascii.ascii :=
  match l with
  | [] => []
  | c :: l' => if Ascii.eqb c chr_slash then drop_slashes l' else l
  end.

(** [os.path.split(p)]: [i = p.rfind('/') + 1], [head, tail = p[:i], p[i:]],
    and [head] loses its trailing slashes unless it is nothing but slashes. *)
Definition os_path_split (p : list Ascii.ascii)
  : list Ascii.ascii * list Ascii.ascii :=
  let head := rev (drop_until_slash (rev p)) in
  let tail := rev (take_until_slash (rev p)) in
  (match drop_slashes head with
   | [] => head
   | _ => rev (drop_slashes (rev head))
   end, tail).

(** One round of the loop of [os.path.join]: [b] replaces the path when it
    starts with a slash, is appended as it is when the path is empty or
    ends with a slash, and after a slash otherwise. *)
Definition os_path_join2 (path b : list Ascii.ascii) : list Ascii.ascii :=
  if match b with c :: _ => Ascii.eqb c chr_slash | [] => false end then b
  else if match rev path with d :: _ => Ascii.eqb d chr_slash | [] => true end
  then path ++ b
  else path ++ chr_slash :: b.

Definition os_path_join3 (a b c : list Ascii.ascii) : list Ascii.ascii :=
  os_path_join2 (os_path_join2 a b) c.

(** [s.endswith(suffix)] *)
Definition endswith (s suffix : list Ascii.ascii) : bool :=
  bool_decide (drop (length s - length suffix) s = suffix).

(** The first lines of [load_file]: a libtool library [x.la] stands for
    [.libs/x.so] beside it. *)
Definition la_redirect (filename : list Ascii.ascii) : list Ascii.ascii :=
  if endswith filename (chars ".la") then
    let '(path, name) := os_path_split filename in
    os_path_join3 path (chars ".libs")
      (take (length name - 3) name ++ chars ".so")
  else filename.

Inductive load_file_result :=
  | calls_load_elf (filename : list Ascii.ascii)
  | calls_load_json (filename : list Ascii.ascii)
  | raises_OSError (filename : list Ascii.ascii)
  | raises_ValueError (filename : list Ascii.ascii)
  | still_looping (filename : list Ascii.ascii).

(** The [while True] loop, run for at most [fuel] rounds. *)
Fixpoint load_file_loop (fuel : nat)
    (fs : list Ascii.ascii → option (list Ascii.ascii))
    (filename : list Ascii.ascii) : load_file_result :=
  match fuel with
  | O => still_looping filename
  | S fuel' =>
      match fs filename with
      | None => raises_OSError filename
      | Some content =>
          let hdr := take 4 content in
          if decide (hdr = Ascii.ascii_of_nat 127 :: chars "ELF") then
            calls_load_elf filename
          else if decide (take 2 hdr = chars "#!") then
            let '(path, name) := os_path_split filename in
            load_file_loop fuel' fs (os_path_join3 path (chars ".libs") name)
          else if decide (take 1 hdr = chars "{") then
            calls_load_json filename
          else raises_ValueError filename
      end
  end.

(** A directory part as file names usually have it: nothing, the root, or
    a name that ends in one slash. *)
Definition dir_prefix (dir : list Ascii.ascii) : Prop :=
  dir = [] ∨ dir = [chr_slash]
  ∨ ∃ d c, dir = d ++ [c; chr_slash] ∧ c ≠ chr_slash.

Definition load_file (fuel : nat)
    (fs : list Ascii.ascii → option (list Ascii.ascii))
    (filename : list Ascii.ascii) : load_file_result :=
  load_file_loop fuel fs (la_redirect filename).

(** A sample file system: a libtool library and a wrapper script, each with
    its real object under [.libs]. *)
Definition sample_elf : list Ascii.ascii :=
  Ascii.ascii_of_nat 127 :: chars "ELF...".

Definition sample_fs (f : list Ascii.ascii) : option (list Ascii.ascii) :=
  if decide (f = chars "lib/.libs/libfrr.so") then Some sample_elf
  else if decide (f = chars "zebra/.libs/zebra") then Some sample_elf
  else if decide (f = chars "zebra/zebra") then Some (chars "#! /bin/sh")
  else None.


(** * [topotato/liveshark.py]: pcap-ng blocks for live captures

    The classes of [pcapng.py] and [timeline.py] are not part of the sources
    at hand.  [context.ifaces] is used as a mapping from interface names to
    indices ([in], [len], item assignment and lookup); the rest of the
    context is only reached through [take_frame_num].  The options a fresh
    [IfDesc()] and a fresh [EnhancedPacket(...)] start with are parameters.
    A scapy packet is represented by what [serialize] reads off it: the
    interface it was sniffed on, the value of
    [getattr(pkt, "time_ns", int(pkt.time * 1e9))], its bytes and the text of
    [pkt.show(dump=True)]; [match_for] by the [repr] of its items. *)
Module liveshark.

Inductive IfDesc_option :=
  | OptName (name : string)
  | OptTSResol (exponent : Z).

Record IfDesc := { ifd_options : list IfDesc_option }.

Inductive EnhancedPacket_option :=
  | OptComment (text : string).

Record EnhancedPacket := {
  epb_iface : nat;
  epb_ts : Z;
  epb_data : list Byte.byte;
  epb_options : list EnhancedPacket_option;
}.

Record Packet := {
  sniffed_on : string;
  time_ns : Z;
  pkt_bytes : list Byte.byte;
  show_dump : string;
}.

Record pcapng_Context (R : Type) := {
  ifaces : gmap string nat;
  ctx_rest : R;
}.
Arguments ifaces {R} _.
Arguments ctx_rest {R} _.

Section serialize.
  Variable R : Type.
  Variable take_frame_num : R → Z * R.
  Variable IfDesc_fresh : list IfDesc_option.
  Variable EnhancedPacket_fresh : list EnhancedPacket_option.

(** The block [LiveScapy.serialize] builds for an interface. *)
Definition ifd_block (ifname : string) : option json * IfDesc :=
  (None, {| ifd_options := IfDesc_fresh ++ [OptName ifname; OptTSResol 9] |}).

(** [LiveScapy.serialize], run to the end of the generator: the blocks it
    yields and the context it leaves. *)
Definition LiveScapy_serialize (ifname : string) (context : pcapng_Context R)
    : list (option json * IfDesc) * pcapng_Context R :=
  match ifaces context !! ifname with
  | Some _ => ([], context)
  | None =>
      ([ifd_block ifname],
       {| ifaces := <[ifname := size (ifaces context)]> (ifaces context);
          ctx_rest := ctx_rest context |})
  end.

(** [TimedScapy.serialize]; [None] is the failed assertion. *)
Definition TimedScapy_serialize (pkt : Packet) (match_for : list string)
    (context : pcapng_Context R)
    : option ((json * EnhancedPacket) * pcapng_Context R) :=
  if decide (is_Some (ifaces context !! sniffed_on pkt)) then
    let '(frame_num, rest) := take_frame_num (ctx_rest context) in
    let context := {| ifaces := ifaces context; ctx_rest := rest |} in
    idx ← ifaces context !! sniffed_on pkt;
    let epb := {| epb_iface := idx; epb_ts := time_ns pkt;
                  epb_data := pkt_bytes pkt;
                  epb_options :=
                    EnhancedPacket_fresh
                    ++ ((λ m, OptComment ("match_for: " +:+ m)) <$> match_for) |} in
    let jsdata := JObj (<["frame_num" := JNum frame_num]>
                       (<["dump" := JStr (show_dump pkt)]>
                       (<["iface" := JStr (sniffed_on pkt)]>
                       (<["type" := JStr "packet"]> ∅)))) in
    Some ((jsdata, epb), context)
  else None.

(** The interface description blocks written so far are the ones the
    indices of [ifaces] point at. *)
Definition ifaces_blocks (m : gmap string nat)
    (blocks : list (option json * IfDesc)) : Prop :=
  length blocks = size m
  ∧ ∀ ifname i, m !! ifname = Some i → blocks !! i = Some (ifd_block ifname).
End serialize.

End liveshark.


(** A sample capture: one registered interface whose block has been written,
    a frame counter as the rest of the context, and a packet sniffed on that
    interface. *)
Definition sample_take_frame_num (n : nat) : Z * nat := (Z.of_nat n, S n).

Definition sample_context : liveshark.pcapng_Context nat :=
  {| liveshark.ifaces := {["r1-eth0" := 0%nat]}; liveshark.ctx_rest := 7%nat |}.

Definition sample_packet : liveshark.Packet :=
  {| liveshark.sniffed_on := "r1-eth0"; liveshark.time_ns := 1000;
     liveshark.pkt_bytes := []; liveshark.show_dump := "###[ Ethernet ]###" |}.


(** A value that [<] accepts on neither side: [None] or a dictionary. *)
Definition never_compares (k : json) : Prop :=
  k = JNull ∨ ∃ d, k = JObj d.


(** * Facts *)

(** ** Dictionaries *)

Section PyDict_facts.
Context {K V : Type} `{EqDecision K}.
Implicit Types (k : K) (v : V) (d : list (K * V)).

Lemma get_set_eq k v d : PyDict.get k (PyDict.set k v d) = Some v.
Proof.
  induction d as [|[k' v'] d IH]; simpl.
  - by rewrite decide_True.
  - destruct (decide (k = k')) as [->|Hne]; simpl.
    + by rewrite decide_True.
    + by rewrite decide_False.
Qed.

Lemma get_set_ne k k' v d :
  k' ≠ k → PyDict.get k' (PyDict.set k v d) = PyDict.get k' d.
Proof.
  intros Hne. induction d as [|[k0 v0] d IH]; simpl.
  - by rewrite decide_False.
  - destruct (decide (k = k0)) as [->|Hk]; simpl.
    + by rewrite !decide_False.
    + by rewrite IH.
Qed.

Lemma get_set k k' v d :
  PyDict.get k' (PyDict.set k v d)
  = if decide (k' = k) then Some v else PyDict.get k' d.
Proof.
  case_decide as Hk; [subst; apply get_set_eq | by apply get_set_ne].
Qed.

Lemma set_get_id k v d : PyDict.get k d = Some v → PyDict.set k v d = d.
Proof.
  induction d as [|[k' v'] d IH]; simpl; [done|].
  destruct (decide (k = k')) as [->|Hne]; [congruence|].
  intros Hg. by rewrite IH.
Qed.

Lemma get_app k d1 d2 :
  PyDict.get k (d1 ++ d2)
  = match PyDict.get k d1 with Some v => Some v | None => PyDict.get k d2 end.
Proof.
  induction d1 as [|[k' v'] d1 IH]; simpl; [done|].
  by destruct (decide (k = k')).
Qed.

Lemma get_None_keys k d : PyDict.get k d = None ↔ k ∉ PyDict.keys d.
Proof.
  unfold PyDict.keys. induction d as [|[k' v'] d IH]; simpl.
  - split; [intros _; apply not_elem_of_nil | done].
  - rewrite not_elem_of_cons. destruct (decide (k = k')) as [->|Hne].
    + split; [done | intros [? _]; done].
    + rewrite IH. tauto.
Qed.

Lemma get_Some_elem_of k v d : PyDict.get k d = Some v → (k, v) ∈ d.
Proof.
  induction d as [|[k' v'] d IH]; simpl; [done|].
  destruct (decide (k = k')) as [->|Hne].
  - intros [= ->]. apply list_elem_of_here.
  - intros Hg. apply list_elem_of_further. auto.
Qed.


(** What [setdefault] followed by an update of the list found amounts to. *)
Lemma get_setdefault_set k k' (dflt : V) (f : V → V) d :
  PyDict.get k'
    (let '(v, d') := PyDict.setdefault k dflt d in PyDict.set k (f v) d')
  = if decide (k' = k) then Some (f (default dflt (PyDict.get k d)))
    else PyDict.get k' d.
Proof.
  unfold PyDict.setdefault. destruct (PyDict.get k d) as [v|] eqn:Hg; simpl.
  - by rewrite get_set.
  - rewrite get_set. case_decide; [done|].
    rewrite get_app. destruct (PyDict.get k' d); [done|].
    simpl. by rewrite decide_False.
Qed.

End PyDict_facts.

(** ** The inner loop of [load_json] *)

Lemma merge_items_app l xs ys :
  merge_items l (xs ++ ys) = merge_items (merge_items l xs) ys.
Proof. apply foldl_app. Qed.

Lemma merge_items_cons l x xs :
  merge_items l (x :: xs) = merge_items (append_unless_present l x) xs.
Proof. reflexivity. Qed.

(** The list only grows at its end, by the occurrences that are new, each
    once and in the order they are met. *)
Lemma merge_items_spec xs : ∀ l,
  ∃ new, merge_items l xs = l ++ new ∧ NoDup new
         ∧ (∀ x, x ∈ new ↔ x ∈ xs ∧ x ∉ l) ∧ sublist new xs.
Proof.
  induction xs as [|x xs IH]; intros l.
  - exists []. rewrite app_nil_r. split_and!; [done|constructor| |done].
    intros x. rewrite !elem_of_nil. tauto.
  - rewrite merge_items_cons. unfold append_unless_present.
    destruct (decide (x ∈ l)) as [Hin|Hnin].
    + destruct (IH l) as (new & -> & Hnd & Hmem & Hsub).
      exists new. split_and!; [done|done| |by apply sublist_cons].
      intros y. rewrite Hmem, elem_of_cons. split; [tauto|].
      intros [[->|?] ?]; tauto.
    + destruct (IH (l ++ [x])) as (new & -> & Hnd & Hmem & Hsub).
      exists (x :: new). split_and!.
      * by rewrite <- app_assoc.
      * apply NoDup_cons. split; [|done].
        rewrite Hmem, elem_of_app, list_elem_of_singleton. tauto.
      * intros y. rewrite !elem_of_cons, Hmem, not_elem_of_app,
          list_elem_of_singleton.
        destruct (decide (y = x)) as [->|]; tauto.
      * by apply sublist_skip.
Qed.

Lemma merge_items_absorb xs l : (∀ x, x ∈ xs → x ∈ l) → merge_items l xs = l.
Proof.
  intros Hall. destruct (merge_items_spec xs l) as (new & -> & _ & Hmem & _).
  destruct new as [|y new]; [by rewrite app_nil_r|].
  destruct (proj1 (Hmem y) (list_elem_of_here _ _)) as [Hy Hny].
  destruct Hny. auto.
Qed.

Lemma merge_items_fresh xs l :
  NoDup xs → (∀ x, x ∈ xs → x ∉ l) → merge_items l xs = l ++ xs.
Proof.
  revert l. induction xs as [|x xs IH]; intros l Hnd Hfresh.
  - by rewrite app_nil_r.
  - apply NoDup_cons in Hnd as [Hx Hnd].
    rewrite merge_items_cons. unfold append_unless_present.
    rewrite decide_False by (apply Hfresh, list_elem_of_here).
    rewrite IH, <- app_assoc; [done|done|].
    intros y Hy. rewrite not_elem_of_app, list_elem_of_singleton. split.
    + apply Hfresh. by apply list_elem_of_further.
    + intros ->. done.
Qed.

Lemma merge_items_elem_of_l xs l x : x ∈ l → x ∈ merge_items l xs.
Proof.
  destruct (merge_items_spec xs l) as (new & -> & _). rewrite elem_of_app. auto.
Qed.

Lemma merge_items_elem_of_r xs l x : x ∈ xs → x ∈ merge_items l xs.
Proof.
  destruct (merge_items_spec xs l) as (new & -> & _ & Hmem & _).
  rewrite elem_of_app, Hmem. destruct (decide (x ∈ l)); tauto.
Qed.

(** ** The outer loop of [load_json] *)

Lemma get_load_json_entry k d u items :
  PyDict.get k (load_json_entry d (u, items))
  = if decide (k = Some u)
    then Some (merge_items (default [] (PyDict.get (Some u) d)) items)
    else PyDict.get k d.
Proof.
  unfold load_json_entry.
  apply (get_setdefault_set (Some u) k [] (λ l, merge_items l items)).
Qed.

Lemma load_json_entry_covered d e : covers d e → load_json_entry d e = d.
Proof.
  destruct e as [u items]. intros (l & Hl & Hall). cbn [fst snd] in *.
  unfold load_json_entry, PyDict.setdefault. rewrite Hl.
  rewrite merge_items_absorb by done. by apply set_get_id.
Qed.

Lemma covers_load_json_entry d e : covers (load_json_entry d e) e.
Proof.
  destruct e as [u items]. unfold covers. cbn [fst snd].
  rewrite get_load_json_entry, decide_True by done.
  eexists. split; [done|]. intros x. apply merge_items_elem_of_r.
Qed.

Lemma covers_step d e e' : covers d e → covers (load_json_entry d e') e.
Proof.
  destruct e as [u items], e' as [u' items']. intros (l & Hl & Hall).
  unfold covers. cbn [fst snd] in *. rewrite get_load_json_entry.
  case_decide as Hu.
  - injection Hu as ->. rewrite Hl. cbn [default]. eexists. split; [done|].
    intros x Hx. by apply merge_items_elem_of_l, Hall.
  - eauto.
Qed.

Lemma covers_foldl es : ∀ d e,
  covers d e → covers (foldl load_json_entry d es) e.
Proof.
  induction es as [|e' es IH]; intros d e Hc; simpl; [done|].
  by apply IH, covers_step.
Qed.

Lemma foldl_load_json_entry_covers es : ∀ d,
  Forall (covers (foldl load_json_entry d es)) es.
Proof.
  induction es as [|e es IH]; intros d; simpl; constructor.
  - apply covers_foldl, covers_load_json_entry.
  - apply IH.
Qed.

Lemma foldl_load_json_entry_covered es : ∀ d,
  Forall (covers d) es → foldl load_json_entry d es = d.
Proof.
  induction es as [|e es IH]; intros d Hall; simpl; [done|].
  apply Forall_cons in Hall as [He Hes].
  rewrite load_json_entry_covered by done. by apply IH.
Qed.

(** C2: merging the same snapshot a second time leaves the store as the
    first merge made it, [merge(merge(S, A), A) = merge(S, A)]. *)
Theorem load_json_idempotent (S : Xrelfo) (A : document) :
  load_json (load_json S A) A = load_json S A.
Proof.
  unfold load_json. simpl. f_equal.
  apply foldl_load_json_entry_covered, foldl_load_json_entry_covers.
Qed.

(** C10: merging a snapshot changes nothing but [refs]: every other
    top-level key of the store, [cli] among them, stays as it was, and the
    result does not depend on what the snapshot holds outside its own
    [refs]. *)
Theorem load_json_frame (S : Xrelfo) (r : list (string * list json))
    (c c' : gmap string json) :
  rest (load_json S (mkDocument r c)) = rest S
  ∧ load_json S (mkDocument r c) = load_json S (mkDocument r c').
Proof. split; reflexivity. Qed.

(** ** What a merge leaves under each identity *)

Lemma items_for_cons u u' items es :
  items_for u ((u', items) :: es)
  = if decide (u' = u) then items ++ items_for u es else items_for u es.
Proof.
  unfold items_for. rewrite filter_cons. cbn [fst].
  by destruct (decide (u' = u)).
Qed.

Lemma items_for_not_mentioned u es : u ∉ es.*1 → items_for u es = [].
Proof.
  induction es as [|[u' items] es IH]; [done|].
  cbn [fmap list_fmap fst]. rewrite not_elem_of_cons. intros [Hne Hnin].
  rewrite items_for_cons, decide_False by done. auto.
Qed.

Lemma get_foldl_load_json_entry es : ∀ d k,
  PyDict.get k (foldl load_json_entry d es)
  = match k with
    | Some u =>
        if decide (u ∈ es.*1)
        then Some (merge_items (default [] (PyDict.get k d)) (items_for u es))
        else PyDict.get k d
    | None => PyDict.get k d
    end.
Proof.
  induction es as [|[u' items] es IH]; intros d k.
  - destruct k as [u|]; [|done]. cbn [foldl fmap list_fmap].
    rewrite decide_False; [done|]. apply not_elem_of_nil.
  - cbn [foldl]. rewrite IH. destruct k as [u|].
    + rewrite get_load_json_entry, items_for_cons. cbn [fmap list_fmap fst].
      destruct (decide (u' = u)) as [->|Hne].
      * rewrite (decide_True (P := Some u = Some u)) by done.
        rewrite (decide_True (P := u ∈ u :: _)) by apply list_elem_of_here.
        rewrite merge_items_app. cbn [default].
        destruct (decide (u ∈ es.*1)) as [Hin|Hnin]; [done|].
        by rewrite (items_for_not_mentioned u es).
      * rewrite (decide_False (P := Some u = Some u')) by congruence.
        destruct (decide (u ∈ es.*1)) as [Hin|Hnin].
        -- rewrite decide_True; [done|]. by apply list_elem_of_further.
        -- rewrite decide_False; [done|]. rewrite not_elem_of_cons. split; congruence.
    + rewrite get_load_json_entry. by rewrite decide_False.
Qed.

(** ** The log-message descriptor *)

Lemma land_pow2_testbit (p n : Z) :
  0 ≤ n → Z.land p (2 ^ n) ≠ 0 ↔ Z.testbit p n = true.
Proof.
  intros Hn. split.
  - intros Hne. destruct (Z.testbit p n) eqn:Hb; [done|].
    destruct Hne. apply Z.bits_inj'. intros i Hi.
    rewrite Z.land_spec, Z.bits_0, Z.pow2_bits_eqb by done.
    destruct (Z.eqb_spec n i) as [->|]; [by rewrite Hb|apply andb_false_r].
  - intros Hb Hz. apply (f_equal (λ z, Z.testbit z n)) in Hz.
    rewrite Z.land_spec, Z.bits_0, Hb, Z.pow2_bits_eqb, Z.eqb_refl in Hz; done.
Qed.

Lemma jsobj_base_flags self : jsobj_base self !! "flags" = None.
Proof.
  unfold jsobj_base, origin_dict. case_decide; by simplify_map_eq.
Qed.

Lemma jsobj_eq self :
  XrefLogmsg.jsobj self
  = Some (let flags :=
            (if decide (Z.land (XrefLogmsg.priority self) 0x10 ≠ 0)
             then [JStr "errno"] else [])
            ++ (if decide (Z.land (XrefLogmsg.priority self) 0x20 ≠ 0)
                then [JStr "getaddrinfo"] else []) in
          match flags with
          | [] => jsobj_base self
          | _ => <["flags" := JArr flags]> (jsobj_base self)
          end).
Proof.
  unfold XrefLogmsg.jsobj. fold (jsobj_base self).
  pose proof (jsobj_base_flags self) as Hf.
  destruct (decide (Z.land _ 0x10 ≠ 0)), (decide (Z.land _ 0x20 ≠ 0));
    unfold setdefault_append; rewrite ?Hf; cbn [mbind option_bind app];
    rewrite ?Hf, ?lookup_insert_eq; cbn [app]; rewrite ?insert_insert_eq; done.
Qed.

Lemma flags_of_jsobj self jsobj :
  XrefLogmsg.jsobj self = Some jsobj →
  flags_of jsobj
  = (if decide (Z.land (XrefLogmsg.priority self) 0x10 ≠ 0)
     then [JStr "errno"] else [])
    ++ (if decide (Z.land (XrefLogmsg.priority self) 0x20 ≠ 0)
        then [JStr "getaddrinfo"] else []).
Proof.
  rewrite jsobj_eq. intros [= <-]. unfold flags_of.
  pose proof (jsobj_base_flags self) as Hf.
  destruct (decide (Z.land _ 0x10 ≠ 0)), (decide (Z.land _ 0x20 ≠ 0));
    cbn [app]; by rewrite ?lookup_insert_eq, ?Hf.
Qed.

Lemma lookup_jsobj_other self jsobj k :
  XrefLogmsg.jsobj self = Some jsobj → k ≠ "flags" →
  jsobj !! k = jsobj_base self !! k.
Proof.
  rewrite jsobj_eq. intros [= <-] Hk.
  destruct (decide (Z.land _ 0x10 ≠ 0)), (decide (Z.land _ 0x20 ≠ 0));
    cbn [app]; by rewrite ?lookup_insert_ne.
Qed.

(** C9: the descriptor of a log message carries the low three bits of the
    packed priority as its priority, the flag "errno" exactly when bit 0x10
    is set, the flag "getaddrinfo" exactly when bit 0x20 is set and the
    error code exactly when it is not zero; the packed priority 0x16 gives
    priority 6 with the flags ["errno"]. *)
Theorem logmsg_descriptor (self : XrefLogmsg.t) :
  ∃ jsobj, XrefLogmsg.jsobj self = Some jsobj
    ∧ jsobj !! "priority" = Some (JNum (XrefLogmsg.priority self `mod` 8))
    ∧ 0 ≤ XrefLogmsg.priority self `mod` 8 ≤ 7
    ∧ (JStr "errno" ∈ flags_of jsobj
       ↔ Z.testbit (XrefLogmsg.priority self) 4 = true)
    ∧ (JStr "getaddrinfo" ∈ flags_of jsobj
       ↔ Z.testbit (XrefLogmsg.priority self) 5 = true)
    ∧ (∀ flag, flag ∈ flags_of jsobj
               → flag = JStr "errno" ∨ flag = JStr "getaddrinfo")
    ∧ jsobj !! "ec" = (if decide (XrefLogmsg.ec self = 0) then None
                       else Some (JNum (XrefLogmsg.ec self)))
    ∧ (XrefLogmsg.priority self = 0x16
       → jsobj !! "priority" = Some (JNum 6)
         ∧ jsobj !! "flags" = Some (JArr [JStr "errno"])).
Proof.
  destruct (XrefLogmsg.jsobj self) as [jsobj|] eqn:Hj;
    [|by rewrite jsobj_eq in Hj].
  exists jsobj. split; [done|].
  assert (Hprio : jsobj !! "priority"
                  = Some (JNum (XrefLogmsg.priority self `mod` 8))).
  { rewrite (lookup_jsobj_other self jsobj) by done.
    unfold jsobj_base. rewrite lookup_insert_ne, lookup_insert_eq by done.
    do 2 f_equal. apply (Z.land_ones _ 3). lia. }
  assert (Hec : jsobj !! "ec"
                = if decide (XrefLogmsg.ec self ≠ 0)
                  then Some (JNum (XrefLogmsg.ec self)) else None).
  { rewrite (lookup_jsobj_other self jsobj) by done.
    unfold jsobj_base, origin_dict.
    destruct (decide (XrefLogmsg.ec self ≠ 0)); by simplify_map_eq. }
  pose proof (flags_of_jsobj self jsobj Hj) as Hflags.
  pose proof (land_pow2_testbit (XrefLogmsg.priority self) 4 ltac:(lia)) as H4.
  pose proof (land_pow2_testbit (XrefLogmsg.priority self) 5 ltac:(lia)) as H5.
  change (2 ^ 4) with 16 in H4. change (2 ^ 5) with 32 in H5.
  split; [exact Hprio|].
  split; [pose proof (Z.mod_pos_bound (XrefLogmsg.priority self) 8); lia|].
  split; [|split; [|split; [|split]]].
  - rewrite Hflags, <- H4.
    destruct (decide (Z.land _ 16 ≠ 0)), (decide (Z.land _ 32 ≠ 0));
      cbn [app]; rewrite ?elem_of_cons, ?elem_of_nil; split;
      try tauto; intros; destruct_or?; try done.
  - rewrite Hflags, <- H5.
    destruct (decide (Z.land _ 16 ≠ 0)), (decide (Z.land _ 32 ≠ 0));
      cbn [app]; rewrite ?elem_of_cons, ?elem_of_nil; split;
      try tauto; intros; destruct_or?; try done.
  - intros flag. rewrite Hflags.
    destruct (decide (Z.land _ 16 ≠ 0)), (decide (Z.land _ 32 ≠ 0));
      cbn [app]; rewrite ?elem_of_cons, ?elem_of_nil; tauto.
  - rewrite Hec. destruct (decide (XrefLogmsg.ec self ≠ 0)) as [Hne|He].
    + by rewrite decide_False.
    + rewrite decide_True; [done|]. by apply dec_stable.
  - intros Hp. split.
    + rewrite Hprio, Hp. done.
    + rewrite jsobj_eq, Hp in Hj.
      change (Z.land 22 16) with 16 in Hj. change (Z.land 22 32) with 0 in Hj.
      rewrite decide_True in Hj by done.
      rewrite decide_False in Hj by (intros H0; by apply H0).
      injection Hj as <-. apply lookup_insert_eq.
Qed.

(** The priority byte 0x16 of the scenario. *)
Lemma logmsg_descriptor_witness :
  let self :=
    XrefLogmsg.mk
      (Xref.mk (mk_xref_fields 0x4000 XREFT_LOGMSG "lib/zlog.c" 42 "zlog_test")
               None)
      0x16 0 "test %d" in
  ∃ jsobj, XrefLogmsg.jsobj self = Some jsobj
    ∧ jsobj !! "priority" = Some (JNum 6)
    ∧ jsobj !! "flags" = Some (JArr [JStr "errno"]).
Proof.
  intros self.
  destruct (logmsg_descriptor self) as (jsobj & Hj & _ & _ & _ & _ & _ & _ & H16).
  exists jsobj. split; [exact Hj|]. apply H16. reflexivity.
Defined.

(** ** Contributions of the log-message handler *)

Lemma XrefLogmsg_to_dict_appends uidhash self xd (S : Xrelfo) :
  Xref.xrefdata (XrefLogmsg.xref self) = Some xd →
  ∃ jsobj S',
    XrefLogmsg.jsobj self = Some jsobj
    ∧ XrefLogmsg.to_dict uidhash self S = Some S'
    ∧ PyDict.get (Xrefdata.uid uidhash xd) (refs S')
      = Some (default [] (PyDict.get (Xrefdata.uid uidhash xd) (refs S))
              ++ [JObj jsobj])
    ∧ (∀ k, k ≠ Xrefdata.uid uidhash xd
            → PyDict.get k (refs S') = PyDict.get k (refs S))
    ∧ rest S' = rest S.
Proof.
  intros Hxd. destruct (XrefLogmsg.jsobj self) as [jsobj|] eqn:Hj;
    [|by rewrite jsobj_eq in Hj].
  exists jsobj. unfold XrefLogmsg.to_dict. rewrite Hj, Hxd.
  cbn [mbind option_bind]. set (uid := Xrefdata.uid uidhash xd).
  pose proof (get_setdefault_set uid uid [] (λ l, l ++ [JObj jsobj]) (refs S))
    as Heq.
  pose proof (λ k, get_setdefault_set uid k [] (λ l, l ++ [JObj jsobj]) (refs S))
    as Hne.
  destruct (PyDict.setdefault uid [] (refs S)) as [myitems refs'].
  eexists. split; [done|]. split; [done|]. cbn [refs rest].
  split; [|split; [|done]].
  - rewrite Heq. by rewrite decide_True.
  - intros k Hk. rewrite Hne. by rewrite decide_False.
Qed.

(** C1, as the code has it: merging a serialized snapshot appends an
    occurrence to the list of its identity unless an occurrence of equal
    content is already there, so the list grows by the new occurrences, each
    once and in the order of the snapshot; a log message contributed during
    ELF extraction is appended to the list of its identity whatever the list
    holds. *)
Theorem refs_dedup_on_snapshot_merge_only
    (uidhash : string → string → Z → Z → string)
    (S : Xrelfo) (A : document) (u : string)
    (self : XrefLogmsg.t) (xd : Xrefdata.t) :
  u ∈ (doc_refs A).*1 →
  Xref.xrefdata (XrefLogmsg.xref self) = Some xd →
  (∃ new,
     PyDict.get (Some u) (refs (load_json S A))
     = Some (default [] (PyDict.get (Some u) (refs S)) ++ new)
     ∧ NoDup new
     ∧ (∀ x, x ∈ new ↔ x ∈ items_for u (doc_refs A)
                        ∧ x ∉ default [] (PyDict.get (Some u) (refs S)))
     ∧ sublist new (items_for u (doc_refs A)))
  ∧ (∃ jsobj S',
       XrefLogmsg.jsobj self = Some jsobj
       ∧ XrefLogmsg.to_dict uidhash self S = Some S'
       ∧ PyDict.get (Xrefdata.uid uidhash xd) (refs S')
         = Some (default [] (PyDict.get (Xrefdata.uid uidhash xd) (refs S))
                 ++ [JObj jsobj])).
Proof.
  intros Hu Hxd. split.
  - unfold load_json. cbn [refs]. rewrite get_foldl_load_json_entry.
    rewrite decide_True by done.
    destruct (merge_items_spec (items_for u (doc_refs A))
                (default [] (PyDict.get (Some u) (refs S))))
      as (new & Heq & Hnd & Hmem & Hsub).
    exists new. by rewrite Heq.
  - destruct (XrefLogmsg_to_dict_appends uidhash self xd S Hxd)
      as (jsobj & S' & Hj & Hd & Hget & _).
    by exists jsobj, S'.
Qed.

Lemma refs_dedup_on_snapshot_merge_only_witness :
  let occ := sample_occurrence "lib/zlog.c" 42 1 in
  let S := {| refs := [(Some "ABCDE-12345", [occ])]; rest := ∅ |} in
  let A := {| doc_refs := [("ABCDE-12345", [occ; occ])]; doc_rest := ∅ |} in
  (∃ new,
     PyDict.get (Some "ABCDE-12345") (refs (load_json S A)) = Some ([occ] ++ new)
     ∧ ∀ x, x ∈ new ↔ x ∈ [occ; occ] ∧ x ∉ [occ])
  ∧ (∃ jsobj S',
       XrefLogmsg.jsobj sample_logmsg = Some jsobj
       ∧ XrefLogmsg.to_dict sample_uidhash sample_logmsg S = Some S'
       ∧ PyDict.get (Some "lib/zlog.c:test %d") (refs S') = Some [JObj jsobj]).
Proof.
  intros occ S A.
  destruct (refs_dedup_on_snapshot_merge_only sample_uidhash S A "ABCDE-12345"
              sample_logmsg
              (Xrefdata.mk 0x5000 "" (Some "test %d") 7 9
                 (mk_xref_fields 0x4000 XREFT_LOGMSG "lib/zlog.c" 42 "zlog_test")))
    as [(new & Hget & _ & Hmem & _) Helf].
  - apply list_elem_of_here.
  - reflexivity.
  - split; [exists new; split; [exact Hget | exact Hmem] | exact Helf].
Defined.

(** C1 as stated fails on the extraction path: the record [sample_logmsg]
    contributed to a store that already holds its descriptor under its
    identity is appended all the same, and the list then holds the
    descriptor twice. *)
Lemma logmsg_contributed_twice_is_kept_twice :
  ∃ jsobj S1 S2,
    XrefLogmsg.jsobj sample_logmsg = Some jsobj
    ∧ XrefLogmsg.to_dict sample_uidhash sample_logmsg Xrelfo_init = Some S1
    ∧ PyDict.get (Some "lib/zlog.c:test %d") (refs S1) = Some [JObj jsobj]
    ∧ XrefLogmsg.to_dict sample_uidhash sample_logmsg S1 = Some S2
    ∧ PyDict.get (Some "lib/zlog.c:test %d") (refs S2)
      = Some [JObj jsobj; JObj jsobj].
Proof.
  pose (xd := Xrefdata.mk 0x5000 "" (Some "test %d") 7 9
                (mk_xref_fields 0x4000 XREFT_LOGMSG "lib/zlog.c" 42 "zlog_test")).
  destruct (XrefLogmsg_to_dict_appends sample_uidhash sample_logmsg xd
              Xrelfo_init eq_refl) as (jsobj & S1 & Hj & Hd1 & Hg1 & _).
  destruct (XrefLogmsg_to_dict_appends sample_uidhash sample_logmsg xd
              S1 eq_refl) as (jsobj' & S2 & Hj' & Hd2 & Hg2 & _).
  rewrite Hj in Hj'. injection Hj' as <-.
  exists jsobj, S1, S2. split_and!; [done|done| |done|].
  - exact Hg1.
  - change (Xrefdata.uid sample_uidhash xd)
      with (Some "lib/zlog.c:test %d") in Hg1, Hg2.
    rewrite Hg2, Hg1. reflexivity.
Qed.

(** ** Merging two snapshots in either order *)

Lemma merge_items_comm l xs ys :
  merge_items (merge_items l xs) ys ≡ₚ merge_items (merge_items l ys) xs.
Proof.
  rewrite <- !merge_items_app.
  destruct (merge_items_spec (xs ++ ys) l) as (n1 & -> & Hnd1 & Hmem1 & _).
  destruct (merge_items_spec (ys ++ xs) l) as (n2 & -> & Hnd2 & Hmem2 & _).
  apply Permutation_app_head, NoDup_Permutation; [done|done|].
  intros x. rewrite Hmem1, Hmem2, !elem_of_app. tauto.
Qed.

(** C3, as the code has it: merging two snapshots in either order gives the
    same identities, each with the same occurrences the same number of
    times; the order inside a list follows the order of the merges.  Nothing
    but [refs] changes. *)
Theorem load_json_commutes_up_to_list_order (S : Xrelfo) (A B : document)
    (k : uid_t) :
  option_Forall2 (≡ₚ)
    (PyDict.get k (refs (load_json (load_json S A) B)))
    (PyDict.get k (refs (load_json (load_json S B) A)))
  ∧ rest (load_json (load_json S A) B) = rest (load_json (load_json S B) A).
Proof.
  split; [|done]. unfold load_json. cbn [refs].
  rewrite !get_foldl_load_json_entry. destruct k as [u|].
  - destruct (decide (u ∈ (doc_refs A).*1)), (decide (u ∈ (doc_refs B).*1));
      cbn [default].
    + constructor. apply merge_items_comm.
    + by constructor.
    + by constructor.
    + destruct (PyDict.get (Some u) (refs S)); by constructor.
  - destruct (PyDict.get None (refs S)); by constructor.
Qed.

(** C3 as stated fails: two snapshots that list different occurrences under
    one identity leave them in the order of the merges. *)
Lemma load_json_order_counterexample :
  let x := sample_occurrence "lib/zlog.c" 42 1 in
  let y := sample_occurrence "lib/zlog.c" 57 2 in
  let A := {| doc_refs := [("ABCDE-12345", [x])]; doc_rest := ∅ |} in
  let B := {| doc_refs := [("ABCDE-12345", [y])]; doc_rest := ∅ |} in
  refs (load_json (load_json Xrelfo_init A) B) = [(Some "ABCDE-12345", [x; y])]
  ∧ refs (load_json (load_json Xrelfo_init B) A) = [(Some "ABCDE-12345", [y; x])]
  ∧ ¬ PyDict.equiv (refs (load_json (load_json Xrelfo_init A) B))
                   (refs (load_json (load_json Xrelfo_init B) A)).
Proof.
  intros x y A B.
  assert (Hxy : x ≠ y).
  { intros Heq. apply (f_equal (λ j, match j with
                                     | JObj m => m !! "k"
                                     | _ => None
                                     end)) in Heq.
    vm_compute in Heq. discriminate. }
  assert (H1 : refs (load_json (load_json Xrelfo_init A) B)
               = [(Some "ABCDE-12345", [x; y])]).
  { vm_compute. reflexivity. }
  assert (H2 : refs (load_json (load_json Xrelfo_init B) A)
               = [(Some "ABCDE-12345", [y; x])]).
  { vm_compute. reflexivity. }
  split; [exact H1|]. split; [exact H2|].
  intros Heq. specialize (Heq (Some "ABCDE-12345")).
  rewrite H1, H2 in Heq. cbn [PyDict.get] in Heq.
  rewrite decide_True in Heq by done.
  apply Hxy.
  exact (f_equal (λ o, match o with Some (z :: _) => z | _ => JNull end) Heq).
Qed.

(** ** Identity *)

(** C8: a Detail record has no identity exactly when it has no hash-input
    text; otherwise the identity is the hash of the owning record's file, the
    text and the two auxiliary integers, so two records that agree on these
    have the same identity wherever they lie in the binary. *)
Theorem uid_address_independent
    (uidhash : string → string → Z → Z → string) (d d' : Xrefdata.t) :
  (Xrefdata.uid uidhash d = None ↔ Xrefdata.hashstr d = None)
  ∧ Xrefdata.uid uidhash d
    = (λ h, uidhash (file (Xrefdata.xref d)) h
              (Xrefdata.hashu32_0 d) (Xrefdata.hashu32_1 d))
      <$> Xrefdata.hashstr d
  ∧ (file (Xrefdata.xref d) = file (Xrefdata.xref d') →
     Xrefdata.hashstr d = Xrefdata.hashstr d' →
     Xrefdata.hashu32_0 d = Xrefdata.hashu32_0 d' →
     Xrefdata.hashu32_1 d = Xrefdata.hashu32_1 d' →
     Xrefdata.uid uidhash d = Xrefdata.uid uidhash d').
Proof.
  unfold Xrefdata.uid. split; [|split].
  - destruct (Xrefdata.hashstr d); split; congruence.
  - by destruct (Xrefdata.hashstr d).
  - by intros -> -> -> ->.
Qed.

(** The same message at two addresses, in two functions. *)
Lemma uid_address_independent_witness :
  Xrefdata.uid sample_uidhash
    (Xrefdata.mk 0x5000 "" (Some "test %d") 7 9
       (mk_xref_fields 0x4000 XREFT_LOGMSG "lib/zlog.c" 42 "zlog_test"))
  = Xrefdata.uid sample_uidhash
      (Xrefdata.mk 0x9100 "" (Some "test %d") 7 9
         (mk_xref_fields 0x8800 XREFT_LOGMSG "lib/zlog.c" 57 "zlog_other")).
Proof.
  apply (proj2 (proj2 (uid_address_independent sample_uidhash _ _)));
    reflexivity.
Defined.

(** ** Command definitions and installations *)

Lemma setdefault_dict_absent k (d : gmap string json) :
  d !! k = None → setdefault_dict k d = Some ∅.
Proof. unfold setdefault_dict. by intros ->. Qed.

Lemma setdefault_dict_present k (d o : gmap string json) :
  d !! k = Some (JObj o) → setdefault_dict k d = Some o.
Proof. unfold setdefault_dict. by intros ->. Qed.

(** A definition leaves its own (empty) list of nodes in the descriptor,
    whatever the descriptor listed before. *)
Lemma CmdElement_to_dict_nodes self (S : Xrelfo) S' :
  CmdElement.to_dict self S = Some S' →
  ∃ jsobj, cli_descriptor S' (CmdElement.name self) = Some jsobj
    ∧ jsobj !! "nodes" = Some (JArr (CmdElement.dict_nodes self))
    ∧ jsobj !! "defun"
      = Some (JObj (origin_dict (Xref.fields (CmdElement.xref self)))).
Proof.
  unfold CmdElement.to_dict.
  destruct (setdefault_dict "cli" (rest S)) as [cli|]; [|done].
  cbn [mbind option_bind].
  destruct (setdefault_dict (CmdElement.name self) cli) as [jsobj|]; [|done].
  cbn [mbind option_bind]. intros [= <-].
  unfold cli_descriptor. cbn [rest]. rewrite !lookup_insert_eq.
  eexists. split; [done|].
  rewrite lookup_insert_eq, lookup_insert_ne by done.
  split; [|done].
  case_decide; [rewrite lookup_delete_ne by done|]; by rewrite lookup_insert_eq.
Qed.

(** An installation met after the definition is added to its list. *)
Lemma XrefInstallElement_to_dict_nodes self (S : Xrelfo) jsobj nodes :
  cli_descriptor S (CmdElement.name (XrefInstallElement.cmd_element self))
  = Some jsobj →
  jsobj !! "nodes" = Some (JArr nodes) →
  ∃ S', XrefInstallElement.to_dict self S = Some S'
    ∧ cli_descriptor S' (CmdElement.name (XrefInstallElement.cmd_element self))
      = Some (<["nodes" := JArr (nodes ++ [install_entry self])]> jsobj).
Proof.
  unfold cli_descriptor, XrefInstallElement.to_dict. intros Hd Hn.
  destruct (rest S !! "cli") as [[| | | |cli]|] eqn:Hcli; try done.
  destruct (cli !! _) as [[| | | |jsobj']|] eqn:Hname; try done.
  injection Hd as ->.
  rewrite (setdefault_dict_present _ _ _ Hcli). cbn [mbind option_bind].
  rewrite (setdefault_dict_present _ _ _ Hname). cbn [mbind option_bind].
  unfold setdefault_append. rewrite Hn. cbn [mbind option_bind].
  eexists. split; [done|]. cbn [rest]. by rewrite !lookup_insert_eq.
Qed.

(** The scenario of the specification: the definition of "show version"
    followed by its installation gives one descriptor with the [defun]
    location and one node. *)
Lemma defun_then_install :
  ∃ S jsobj,
    load_elf_ptrs sample_uidhash Xrelfo_init
      [Some (CmdElement sample_defun); Some (XrefInstallElement sample_install)]
    = Some S
    ∧ cli_descriptor S "show version" = Some jsobj
    ∧ jsobj !! "defun"
      = Some (JObj (origin_dict (Xref.fields (CmdElement.xref sample_defun))))
    ∧ jsobj !! "nodes" = Some (JArr [install_entry sample_install]).
Proof.
  destruct (CmdElement.to_dict sample_defun Xrelfo_init) as [S1|] eqn:H1;
    [|by vm_compute in H1].
  destruct (CmdElement_to_dict_nodes _ _ _ H1) as (j1 & Hd1 & Hn1 & Hf1).
  destruct (XrefInstallElement_to_dict_nodes sample_install S1 j1 [] Hd1 Hn1)
    as (S2 & H2 & Hd2).
  exists S2. eexists. cbn [load_elf_ptrs foldlM container_to_dict].
  rewrite H1. cbn [mbind option_bind]. rewrite H2. cbn [mbind option_bind].
  split; [done|]. split; [exact Hd2|].
  split; [by rewrite lookup_insert_ne|by rewrite lookup_insert_eq].
Qed.

(** An installation met first makes the descriptor, with one node. *)
Lemma XrefInstallElement_to_dict_fresh self (S : Xrelfo) :
  rest S !! "cli" = None →
  ∃ S', XrefInstallElement.to_dict self S = Some S'
    ∧ cli_descriptor S' (CmdElement.name (XrefInstallElement.cmd_element self))
      = Some (<["nodes" := JArr [install_entry self]]> ∅).
Proof.
  intros Hcli. unfold XrefInstallElement.to_dict.
  rewrite (setdefault_dict_absent "cli") by done. cbn [mbind option_bind].
  rewrite setdefault_dict_absent by done. cbn [mbind option_bind].
  unfold setdefault_append. rewrite lookup_empty. cbn [mbind option_bind].
  eexists. split; [done|]. unfold cli_descriptor. cbn [rest].
  by rewrite !lookup_insert_eq.
Qed.

(** C5 fails when the installation comes first: the installation makes the
    descriptor of "show version" with its node, and the definition then
    writes its own empty list over that list, so the descriptor ends with
    the [defun] location and no node. *)
Theorem install_then_defun_loses_node :
  ∃ S1 jsobj1 S2 jsobj2,
    XrefInstallElement.to_dict sample_install Xrelfo_init = Some S1
    ∧ cli_descriptor S1 "show version" = Some jsobj1
    ∧ jsobj1 !! "nodes" = Some (JArr [install_entry sample_install])
    ∧ load_elf_ptrs sample_uidhash Xrelfo_init
        [Some (XrefInstallElement sample_install);
         Some (CmdElement sample_defun)]
      = Some S2
    ∧ cli_descriptor S2 "show version" = Some jsobj2
    ∧ jsobj2 !! "defun"
      = Some (JObj (origin_dict (Xref.fields (CmdElement.xref sample_defun))))
    ∧ jsobj2 !! "nodes" = Some (JArr []).
Proof.
  destruct (XrefInstallElement_to_dict_fresh sample_install Xrelfo_init eq_refl)
    as (S1 & H1 & Hd1).
  change (CmdElement.name (XrefInstallElement.cmd_element sample_install))
    with "show version" in Hd1.
  destruct (CmdElement.to_dict sample_defun S1) as [S2|] eqn:H2.
  - destruct (CmdElement_to_dict_nodes _ _ _ H2) as (j2 & Hd2 & Hn2 & Hf2).
    exists S1. eexists. exists S2, j2.
    cbn [load_elf_ptrs foldlM container_to_dict].
    rewrite H1. cbn [mbind option_bind]. rewrite H2.
    split; [done|]. split; [exact Hd1|]. split; [by rewrite lookup_insert_eq|].
    done.
  - exfalso. revert Hd1 H2. unfold cli_descriptor, CmdElement.to_dict.
    destruct (rest S1 !! "cli") as [[| | | |cli]|] eqn:Hcli; try done.
    destruct (cli !! "show version") as [[| | | |jsobj]|] eqn:Hname; try done.
    intros _. rewrite (setdefault_dict_present _ _ _ Hcli).
    cbn [mbind option_bind].
    change (CmdElement.name sample_defun) with "show version".
    by rewrite (setdefault_dict_present _ _ _ Hname).
Qed.

(** ** Locating the pointer table *)

Lemma byte_of_Z_value z : 0 ≤ z < 256 → Z.of_N (Byte.to_N (byte_of_Z z)) = z.
Proof.
  intros Hz. unfold byte_of_Z.
  destruct (Byte.of_N (Z.to_N z)) as [b|] eqn:Hb.
  - apply Byte.to_of_N in Hb. rewrite Hb. lia.
  - apply Byte.of_N_None_iff in Hb. lia.
Qed.

Lemma le_uint_le_bytes w : ∀ v, le_uint (le_bytes w v) = v mod 256 ^ Z.of_nat w.
Proof.
  induction w as [|w IH]; intros v.
  - cbn [le_bytes le_uint]. change (256 ^ Z.of_nat 0) with 1. by rewrite Z.mod_1_r.
  - cbn [le_bytes le_uint]. rewrite IH, byte_of_Z_value
      by (apply Z.mod_pos_bound; lia).
    rewrite Nat2Z.inj_succ, Z.pow_succ_r by lia.
    rewrite Z.rem_mul_r by lia. done.
Qed.

Lemma length_le_bytes w : ∀ v, length (le_bytes w v) = w.
Proof. induction w as [|w IH]; intros v; cbn [le_bytes length]; by rewrite ?IH. Qed.

Lemma length_pack_uint endian w v : length (pack_uint endian w v) = w.
Proof.
  unfold pack_uint. destruct endian; by rewrite ?length_rev, length_le_bytes.
Qed.

Lemma unpack_pack_uint endian w v :
  0 ≤ v < 256 ^ Z.of_nat w → unpack_uint endian (pack_uint endian w v) = v.
Proof.
  intros Hv. unfold unpack_uint, pack_uint.
  destruct endian; rewrite ?rev_involutive, le_uint_le_bytes;
    by apply Z.mod_small.
Qed.

Lemma struct_unpack2_pack endian w start_ end_ :
  0 ≤ start_ < 256 ^ Z.of_nat w → 0 ≤ end_ < 256 ^ Z.of_nat w →
  struct_unpack2 endian w (pack_uint endian w start_ ++ pack_uint endian w end_)
  = Some (start_, end_).
Proof.
  intros Hs He. unfold struct_unpack2.
  rewrite decide_True by (rewrite length_app, !length_pack_uint; lia).
  rewrite take_app_length' , drop_app_length' by (symmetry; apply length_pack_uint).
  by rewrite !unpack_pack_uint.
Qed.

(** C7: the pointer table is looked for in the note ("FRRouting", "XREF")
    first; its payload is the two integers [start_] and [end_] of the file's
    word width (8 bytes for class 64, 4 otherwise) in the file's byte order,
    and the table is the range from [start_] to [end_], both counted from
    where the note starts and [end_] one word further.  Without the note the
    section "xref_array" is the table; without either, loading fails. *)
Theorem load_elf_table_discovery (edf : ELFDissectFile) :
  let elf := _elffile edf in
  let w := if decide (elfclass elf = 64) then 8%nat else 4%nat in
  (∀ note start_ end_,
     find_note elf "FRRouting" "XREF" = Some note →
     0 ≤ start_ < 256 ^ Z.of_nat w →
     0 ≤ end_ < 256 ^ Z.of_nat w →
     getitem elf note
     = pack_uint (bigendian elf) w start_ ++ pack_uint (bigendian elf) w end_ →
     load_elf_table edf
     = inr (iter_data_slice (start_ + start note)
              (end_ + start note + Z.of_nat w)))
  ∧ (∀ xrefarray,
       find_note elf "FRRouting" "XREF" = None →
       get_section edf "xref_array" = Some xrefarray →
       load_elf_table edf = inr (iter_data_section xrefarray))
  ∧ (find_note elf "FRRouting" "XREF" = None →
     get_section edf "xref_array" = None →
     ∃ msg, load_elf_table edf = inl (ValueError msg)).
Proof.
  intros elf w. unfold load_elf_table. fold elf. split; [|split].
  - intros note start_ end_ -> Hs He ->. subst w.
    destruct (decide (elfclass elf = 64));
      rewrite struct_unpack2_pack by done; do 2 f_equal; lia.
  - by intros xrefarray -> ->.
  - intros -> ->. by eexists.
Qed.

Lemma load_elf_table_discovery_witness :
  let note := mk_note 0x2a0 0x2b0 in
  let xrefarray := mk_section "xref_array" [] in
  let with_note (be : bool) (class : Z) (mem : list byte) :=
    mk_edf (mk_elffile (λ _ _, Some note) be class (λ _, mem))
           (λ _, Some xrefarray) in
  let without_note (sections : string → option ELFSection) :=
    mk_edf (mk_elffile (λ _ _, None) false 64 (λ _, [])) sections in
  load_elf_table
    (with_note false 64
       (pack_uint false 8 0x1000 ++ pack_uint false 8 0x1ff0))
  = inr (iter_data_slice (0x1000 + 0x2a0) (0x1ff0 + 0x2a0 + 8))
  ∧ load_elf_table
      (with_note true 32 (pack_uint true 4 0x1000 ++ pack_uint true 4 0x1ff0))
    = inr (iter_data_slice (0x1000 + 0x2a0) (0x1ff0 + 0x2a0 + 4))
  ∧ load_elf_table (without_note (λ _, Some xrefarray))
    = inr (iter_data_section xrefarray)
  ∧ ∃ msg, load_elf_table (without_note (λ _, None)) = inl (ValueError msg).
Proof.
  intros note xrefarray with_note without_note. split; [|split; [|split]].
  - apply (proj1 (load_elf_table_discovery
                    (with_note false 64
                       (pack_uint false 8 0x1000 ++ pack_uint false 8 0x1ff0)))
             note 0x1000 0x1ff0); [reflexivity| | |reflexivity];
      vm_compute; split; easy.
  - apply (proj1 (load_elf_table_discovery
                    (with_note true 32
                       (pack_uint true 4 0x1000 ++ pack_uint true 4 0x1ff0)))
             note 0x1000 0x1ff0); [reflexivity| | |reflexivity];
      vm_compute; split; easy.
  - apply (proj1 (proj2 (load_elf_table_discovery
                           (without_note (λ _, Some xrefarray)))));
      reflexivity.
  - apply (proj2 (proj2 (load_elf_table_discovery (without_note (λ _, None)))));
      reflexivity.
Defined.

(** ** The stable sort *)

Section stable_sort_facts.
Context {A : Type} (le : A → A → bool).

Lemma insert_stable_Permutation x l : insert_stable le x l ≡ₚ x :: l.
Proof.
  induction l as [|y l IH]; cbn [insert_stable]; [done|].
  destruct (le x y); [done|]. rewrite IH. apply Permutation_swap.
Qed.

Lemma stable_sort_Permutation l : stable_sort le l ≡ₚ l.
Proof.
  unfold stable_sort. induction l as [|x l IH]; cbn [foldr]; [done|].
  by rewrite insert_stable_Permutation, IH.
Qed.

Lemma insert_stable_sorted x l :
  (∀ a b, le a b = false → le b a = true) →
  (∀ a b c, le a b = true → le b c = true → le a c = true) →
  StronglySorted (λ a b, le a b = true) l →
  StronglySorted (λ a b, le a b = true) (insert_stable le x l).
Proof.
  intros Htotal Htrans. induction 1 as [|y l Hs IH Hy]; cbn [insert_stable].
  - repeat constructor.
  - destruct (le x y) eqn:Hxy.
    + constructor; [by constructor|]. constructor; [done|].
      eapply Forall_impl; [exact Hy|]. intros z Hz. by eapply Htrans.
    + constructor; [done|]. rewrite insert_stable_Permutation.
      constructor; [by apply Htotal | done].
Qed.

Lemma stable_sort_sorted l :
  (∀ a b, le a b = false → le b a = true) →
  (∀ a b c, le a b = true → le b c = true → le a c = true) →
  StronglySorted (λ a b, le a b = true) (stable_sort le l).
Proof.
  intros Htotal Htrans. unfold stable_sort.
  induction l as [|x l IH]; cbn [foldr]; [constructor|].
  by apply insert_stable_sorted.
Qed.

(** Elements that the order does not tell apart keep their places. *)
Lemma insert_stable_filter (P : A → Prop) `{∀ x, Decision (P x)} x l :
  (∀ a b, P a → P b → le a b = true) →
  filter P (insert_stable le x l) = filter P (x :: l).
Proof.
  intros Hties. induction l as [|y l IH]; cbn [insert_stable]; [done|].
  destruct (le x y) eqn:Hxy; [done|].
  rewrite filter_cons, IH, !filter_cons.
  destruct (decide (P x)) as [Hx|Hx], (decide (P y)) as [Hy|Hy]; try done.
  rewrite Hties in Hxy; done.
Qed.

Lemma stable_sort_filter (P : A → Prop) `{∀ x, Decision (P x)} l :
  (∀ a b, P a → P b → le a b = true) →
  filter P (stable_sort le l) = filter P l.
Proof.
  intros Hties. unfold stable_sort.
  induction l as [|x l IH]; cbn [foldr]; [done|].
  rewrite insert_stable_filter by done. by rewrite !filter_cons, IH.
Qed.

End stable_sort_facts.

Lemma stable_sort_fmap {A B} (f : A → B) (le : A → A → bool)
    (le' : B → B → bool) l :
  (∀ a b, le' (f a) (f b) = le a b) →
  stable_sort le' (f <$> l) = f <$> stable_sort le l.
Proof.
  intros Hle. unfold stable_sort.
  induction l as [|x l IH]; cbn [fmap list_fmap foldr]; [done|].
  change (list_fmap A B f l) with (f <$> l). rewrite IH.
  generalize (foldr (insert_stable le) [] l). intros s.
  induction s as [|y s IHs]; cbn [fmap list_fmap insert_stable]; [done|].
  rewrite Hle. destruct (le x y); [done|].
  cbn [fmap list_fmap]. f_equal. exact IHs.
Qed.

(** ** Writing the store and reading it back *)

Lemma items_for_NoDup u l es :
  NoDup es.*1 → (u, l) ∈ es → items_for u es = l.
Proof.
  induction es as [|[u' l'] es IH]; cbn [fmap list_fmap fst].
  - intros _ Hin. by apply elem_of_nil in Hin.
  - rewrite NoDup_cons. intros [Hu' Hnd] Hin. rewrite items_for_cons.
    apply elem_of_cons in Hin as [[= -> ->]|Hin].
    + rewrite decide_True by done.
      rewrite items_for_not_mentioned by done. apply app_nil_r.
    + rewrite decide_False; [by apply IH|].
      intros ->. apply Hu'. apply list_elem_of_fmap. by exists (u, l).
Qed.

Lemma dumped_keys (d : list (uid_t * list json)) :
  None ∉ PyDict.keys d →
  Some <$> (prod_map dump_key id <$> d).*1 = PyDict.keys d.
Proof.
  unfold PyDict.keys. induction d as [|[[u|] l] d IH];
    cbn [fmap list_fmap fst prod_map dump_key]; [done| |].
  - rewrite not_elem_of_cons. intros [_ Hd]. f_equal. by apply IH.
  - rewrite not_elem_of_cons. intros [Hd _]. done.
Qed.

(** C4, as the code has it: written with [json.dump] and merged into a fresh
    store, a store gets its [refs] mapping back, provided every identity is
    present and no list of [refs] holds the same occurrence twice; the [cli]
    mapping and the other top-level keys do not come back, the reloaded
    store has [refs] only. *)
Theorem dump_then_load_restores_refs (S : Xrelfo) :
  NoDup (PyDict.keys (refs S)) →
  None ∉ PyDict.keys (refs S) →
  (∀ k l, PyDict.get k (refs S) = Some l → NoDup l) →
  ∃ data, json_dump S = Some data
    ∧ PyDict.equiv (refs (load_json Xrelfo_init data)) (refs S)
    ∧ rest (load_json Xrelfo_init data) = ∅.
Proof.
  intros Hkeys Hnone Hlists. unfold json_dump.
  rewrite decide_False by tauto. eexists. split; [done|]. split; [|done].
  intros k. unfold load_json. cbn [refs doc_refs Xrelfo_init].
  rewrite get_foldl_load_json_entry.
  set (es := prod_map dump_key id <$> refs S).
  assert (Hperm : stable_sort key_leb es ≡ₚ es)
    by apply stable_sort_Permutation.
  pose proof (dumped_keys (refs S) Hnone) as Hdk. fold es in Hdk.
  destruct k as [u|]; cbn [PyDict.get].
  - assert (Hmention : u ∈ (stable_sort key_leb es).*1
                       ↔ Some u ∈ PyDict.keys (refs S)).
    { rewrite Hperm, <- Hdk. by rewrite (list_elem_of_fmap_inj Some). }
    destruct (PyDict.get (Some u) (refs S)) as [l|] eqn:Hget.
    + rewrite decide_True.
      2:{ apply Hmention. intros; apply dec_stable. intros Hn.
          apply get_None_keys in Hn. congruence. }
      cbn [default]. f_equal.
      rewrite (items_for_NoDup u l).
      * apply (merge_items_fresh l []); [by eapply Hlists|].
        intros x _. apply not_elem_of_nil.
      * rewrite Hperm. apply (NoDup_fmap_1 Some). by rewrite Hdk.
      * rewrite Hperm. apply list_elem_of_fmap.
        exists (Some u, l). split; [done|]. by apply get_Some_elem_of.
    + rewrite decide_False; [done|].
      rewrite Hmention. by apply get_None_keys.
  - symmetry. by apply get_None_keys.
Qed.

Lemma dump_then_load_restores_refs_witness :
  let x := sample_occurrence "lib/zlog.c" 42 1 in
  let y := sample_occurrence "lib/zlog.c" 57 2 in
  let S := {| refs := [(Some "VWXYZ-67890", [x; y]); (Some "ABCDE-12345", [y])];
              rest := ∅ |} in
  ∃ data, json_dump S = Some data
    ∧ PyDict.equiv (refs (load_json Xrelfo_init data)) (refs S)
    ∧ rest (load_json Xrelfo_init data) = ∅.
Proof.
  intros x y S. apply (dump_then_load_restores_refs S).
  - apply (bool_decide_unpack _). vm_compute. exact I.
  - apply (bool_decide_unpack _). vm_compute. exact I.
  - intros k l Hget. cbn [S refs PyDict.get] in Hget.
    repeat case_decide; try discriminate; injection Hget as <-;
      apply (bool_decide_unpack _); vm_compute; exact I.
Defined.

(** C4 as stated fails: a store that holds a command descriptor loses it,
    the reloaded store has no [cli] key. *)
Lemma dump_then_load_drops_cli :
  ∃ S data,
    load_elf_ptrs sample_uidhash Xrelfo_init
      [Some (CmdElement sample_defun); Some (XrefInstallElement sample_install)]
    = Some S
    ∧ is_Some (cli_descriptor S "show version")
    ∧ json_dump S = Some data
    ∧ rest (load_json Xrelfo_init data) !! "cli" = None
    ∧ load_json Xrelfo_init data ≠ S.
Proof.
  destruct defun_then_install as (S & jsobj & Hload & Hd & _).
  exists S. eexists. split; [exact Hload|]. split; [by eexists|].
  assert (Hrefs : refs S = []).
  { revert Hload. cbn [load_elf_ptrs foldlM container_to_dict].
    unfold CmdElement.to_dict, XrefInstallElement.to_dict.
    destruct (setdefault_dict "cli" (rest Xrelfo_init)); [|done].
    cbn [mbind option_bind]. destruct (setdefault_dict _ _); [|done].
    cbn [mbind option_bind rest]. destruct (setdefault_dict "cli" _); [|done].
    cbn [mbind option_bind]. destruct (setdefault_dict _ _); [|done].
    cbn [mbind option_bind]. destruct (setdefault_append _ _ _); [|done].
    cbn [mbind option_bind]. by intros [= <-]. }
  unfold json_dump. rewrite Hrefs.
  rewrite decide_False by (cbn; lia).
  split; [done|]. split; [done|].
  intros Heq. apply (f_equal (λ s, cli_descriptor s "show version")) in Heq.
  by rewrite Hd in Heq.
Qed.

(** ** The by-file view *)

Lemma foldlM_app {A B} (f : A → B → option A) l1 l2 : ∀ a,
  foldlM f a (l1 ++ l2) = a' ← foldlM f a l1; foldlM f a' l2.
Proof.
  induction l1 as [|x l1 IH]; intros a; cbn [foldlM app]; [done|].
  destruct (f a x) as [a'|]; cbn [mbind option_bind]; [apply IH|done].
Qed.

Lemma outbyfile_collect_occurrences refs :
  outbyfile_collect refs = foldlM outbyfile_add [] (occurrences refs).
Proof.
  unfold outbyfile_collect, occurrences. generalize (@nil (json * list json)).
  induction refs as [|[u locs] refs IH]; intros out;
    cbn [foldlM fmap list_fmap snd concat]; [done|].
  rewrite foldlM_app.
  destruct (foldlM outbyfile_add out locs); cbn [mbind option_bind]; [apply IH|done].
Qed.

Section PyDict_shape.
Context {K V : Type} `{EqDecision K}.
Implicit Types (k : K) (v : V) (d : list (K * V)).

Lemma keys_set k v d :
  PyDict.keys (PyDict.set k v d)
  = if decide (k ∈ PyDict.keys d) then PyDict.keys d else PyDict.keys d ++ [k].
Proof.
  unfold PyDict.keys. induction d as [|[k' v'] d IH];
    cbn [PyDict.set fmap list_fmap fst].
  - rewrite decide_False; [done|apply not_elem_of_nil].
  - destruct (decide (k = k')) as [->|Hne]; cbn [fmap list_fmap fst].
    + rewrite decide_True; [done|apply list_elem_of_here].
    + change (list_fmap _ _ fst ?l) with (l.*1). rewrite IH.
      destruct (decide (k ∈ d.*1)) as [Hin|Hnin].
      * rewrite decide_True; [done|by apply list_elem_of_further].
      * rewrite decide_False; [done|]. rewrite not_elem_of_cons. by split.
Qed.

Lemma NoDup_keys_set k v d :
  NoDup (PyDict.keys d) → NoDup (PyDict.keys (PyDict.set k v d)).
Proof.
  intros Hnd. rewrite keys_set. case_decide as Hk; [done|].
  apply NoDup_app. split_and!; [done| |apply NoDup_singleton].
  intros x Hx. rewrite list_elem_of_singleton. by intros ->.
Qed.

Lemma Forall_set (Q : K * V → Prop) k v d :
  Q (k, v) → Forall Q d → Forall Q (PyDict.set k v d).
Proof.
  intros Hq. induction 1 as [|[k' v'] d Hx Hd IH]; cbn [PyDict.set].
  - by repeat constructor.
  - destruct (decide (k = k')); by constructor.
Qed.

End PyDict_shape.

Lemma get_fmap_values {K V W} `{EqDecision K} (h : V → W) k (d : list (K * V)) :
  PyDict.get k (prod_map id h <$> d) = h <$> PyDict.get k d.
Proof.
  induction d as [|[k' v'] d IH]; cbn [fmap list_fmap prod_map PyDict.get]; [done|].
  cbn [fst snd id]. destruct (decide (k = k')); [done|apply IH].
Qed.

Lemma keys_fmap_values {K V W} (h : V → W) (d : list (K * V)) :
  PyDict.keys (prod_map id h <$> d) = PyDict.keys d.
Proof.
  unfold PyDict.keys. rewrite <- list_fmap_compose. by apply list_fmap_ext; intros [].
Qed.

Lemma outbyfile_add_spec out loc :
  occurrence_ok loc →
  NoDup (PyDict.keys out) →
  Forall (λ e, Forall has_line e.2) out →
  ∃ out', outbyfile_add out loc = Some out'
    ∧ NoDup (PyDict.keys out')
    ∧ Forall (λ e, Forall has_line e.2) out'
    ∧ ∀ f, PyDict.get f out'
           = if decide (file_of loc = Some f)
             then Some (default [] (PyDict.get f out) ++ [strip_file loc])
             else PyDict.get f out.
Proof.
  intros (m & f0 & n & -> & Hf & Hn) Hnd Hall.
  assert (Hnew : has_line (JObj (delete "file" m))).
  { cbn [line_key line_of]. by rewrite lookup_delete_ne, Hn. }
  unfold outbyfile_add. rewrite Hf. cbn [mbind option_bind hashable].
  unfold PyDict.setdefault.
  destruct (PyDict.get (JStr f0) out) as [l|] eqn:Hg.
  - eexists. split; [done|]. split; [by apply NoDup_keys_set|]. split.
    + apply Forall_set; [|done]. cbn [snd]. apply Forall_app. split.
      * apply get_Some_elem_of in Hg.
        by apply (proj1 (Forall_forall _ _) Hall _ Hg).
      * by repeat constructor.
    + intros f. rewrite get_set. cbn [file_of strip_file]. rewrite Hf.
      destruct (decide (f = JStr f0)) as [->|Hne].
      * rewrite decide_True by done. by rewrite Hg.
      * rewrite decide_False by congruence. done.
  - eexists. split; [done|]. split; [|split].
    + apply NoDup_keys_set. unfold PyDict.keys. rewrite fmap_app.
      apply NoDup_app. split_and!; [done| |apply NoDup_singleton].
      intros x Hx. cbn. rewrite list_elem_of_singleton. intros ->.
      by apply get_None_keys in Hg.
    + apply Forall_set; [by repeat constructor|].
      apply Forall_app. split; [done|]. by repeat constructor.
    + intros f. rewrite get_set, get_app. cbn [file_of strip_file]. rewrite Hf.
      destruct (decide (f = JStr f0)) as [->|Hne].
      * rewrite decide_True by done. by rewrite Hg.
      * rewrite decide_False by congruence.
        destruct (PyDict.get f out); [done|].
        cbn [PyDict.get]. by rewrite decide_False.
Qed.

Lemma expected_under_cons f x locs :
  expected_under f (x :: locs)
  = if decide (file_of x = Some f)
    then strip_file x :: expected_under f locs
    else expected_under f locs.
Proof.
  unfold expected_under. rewrite filter_cons.
  by destruct (decide (file_of x = Some f)).
Qed.

Lemma foldlM_outbyfile_add locs : ∀ out,
  Forall occurrence_ok locs →
  NoDup (PyDict.keys out) →
  Forall (λ e, Forall has_line e.2) out →
  ∃ out', foldlM outbyfile_add out locs = Some out'
    ∧ NoDup (PyDict.keys out')
    ∧ Forall (λ e, Forall has_line e.2) out'
    ∧ ∀ f, PyDict.get f out'
           = if decide (expected_under f locs = [])
             then PyDict.get f out
             else Some (default [] (PyDict.get f out) ++ expected_under f locs).
Proof.
  induction locs as [|loc locs IH]; intros out Hok Hnd Hall.
  - exists out. split; [done|]. split; [done|]. split; [done|].
    intros f. by rewrite decide_True.
  - apply Forall_cons in Hok as [Hloc Hok].
    destruct (outbyfile_add_spec out loc Hloc Hnd Hall)
      as (out1 & Hadd & Hnd1 & Hall1 & Hget1).
    destruct (IH out1 Hok Hnd1 Hall1) as (out' & Hfold & Hnd' & Hall' & Hget').
    exists out'. cbn [foldlM]. rewrite Hadd. cbn [mbind option_bind].
    split; [done|]. split; [done|]. split; [done|].
    intros f. rewrite Hget', Hget1, expected_under_cons.
    destruct (decide (file_of loc = Some f)) as [Hfile|Hfile].
    + rewrite (decide_False (P := _ :: _ = [])) by done. cbn [default].
      destruct (decide (expected_under f locs = [])) as [->|_]; [done|].
      unfold id. by rewrite <- app_assoc.
    + done.
Qed.

Lemma insert_by_key_num (x : Z * json) (l : list (Z * json)) :
  insert_by_key (prod_map JNum id x) (prod_map JNum id <$> l)
  = Some (prod_map JNum id <$> insert_stable line_leb x l).
Proof.
  induction l as [|y l IH]; [done|].
  cbn [fmap list_fmap insert_by_key insert_stable].
  destruct x as [kx x], y as [ky y].
  cbn [prod_map fst snd py_lt mbind option_bind] in *.
  unfold line_leb at 1. cbn [fst]. rewrite (Z.ltb_antisym kx ky).
  destruct (kx <=? ky); cbn [negb]; [done|].
  rewrite IH. done.
Qed.

Lemma sorted_by_key_num (l : list (Z * json)) :
  sorted_by_key (prod_map JNum id <$> l)
  = Some (prod_map JNum id <$> stable_sort line_leb l).
Proof.
  unfold sorted_by_key, stable_sort.
  induction l as [|x l IH]; [done|].
  cbn [fmap list_fmap foldr]. rewrite IH. cbn [mbind option_bind].
  apply insert_by_key_num.
Qed.

Lemma sorted_by_line_eq l :
  Forall has_line l → sorted_by_line l = Some (stable_sort line_of_leb l).
Proof.
  intros Hall. unfold sorted_by_line.
  assert (Hkeys : mapM line_key l = Some ((λ x, JNum (line_of x)) <$> l)).
  { apply mapM_Some_2. induction Hall as [|x l Hx Hl IH];
      cbn [fmap list_fmap]; constructor; done. }
  rewrite Hkeys. cbn [mbind option_bind].
  assert (Hzip : zip ((λ x, JNum (line_of x)) <$> l) l
                 = prod_map JNum id <$> ((λ x, (line_of x, x)) <$> l)).
  { clear. induction l as [|x l IH]; [done|].
    cbn [fmap list_fmap zip zip_with]. f_equal. exact IH. }
  rewrite Hzip, sorted_by_key_num. cbn [mbind option_bind]. f_equal.
  rewrite (stable_sort_fmap _ line_of_leb) by done.
  rewrite <- !list_fmap_compose. apply list_fmap_id.
Qed.

Lemma mapM_sorted_by_line (out : list (json * list json)) :
  Forall (λ e, Forall has_line e.2) out →
  mapM (λ '(k, l), l' ← sorted_by_line l; Some (k, l')) out
  = Some (prod_map id (stable_sort line_of_leb) <$> out).
Proof.
  intros Hall. apply mapM_Some_2.
  induction Hall as [|[k l] out Hl Hout IH]; cbn [fmap list_fmap]; constructor.
  - cbn [snd] in Hl. by rewrite sorted_by_line_eq.
  - exact IH.
Qed.

Lemma StronglySorted_weaken {A} (R R' : A → A → Prop) l :
  (∀ a b, R a b → R' a b) → StronglySorted R l → StronglySorted R' l.
Proof.
  intros HR. induction 1 as [|x l Hs IH Hx]; constructor; [done|].
  eapply Forall_impl; [exact Hx|]. auto.
Qed.

Lemma line_of_leb_total a b : line_of_leb a b = false → line_of_leb b a = true.
Proof. unfold line_of_leb. lia. Qed.

Lemma line_of_leb_trans a b c :
  line_of_leb a b = true → line_of_leb b c = true → line_of_leb a c = true.
Proof. unfold line_of_leb. lia. Qed.

(** C6: for a store whose occurrences have a file name and a line number,
    the by-file view lists under each file exactly the occurrences of that
    file, each as often as [refs] holds it and without its ['file'] key, in
    ascending order of the line numbers the descriptors record ([line_of]),
    occurrences of one line number staying in the order [refs] has them;
    files without occurrence have no key, and no key comes twice. *)
Theorem by_file_view (refs : list (uid_t * list json)) :
  Forall occurrence_ok (occurrences refs) →
  ∃ outbyfile, by_file refs = Some outbyfile
    ∧ NoDup (PyDict.keys outbyfile)
    ∧ ∀ f,
        match PyDict.get f outbyfile with
        | None => expected_under f (occurrences refs) = []
        | Some l =>
            expected_under f (occurrences refs) ≠ []
            ∧ l ≡ₚ expected_under f (occurrences refs)
            ∧ StronglySorted (λ a b, line_of a ≤ line_of b) l
            ∧ ∀ n, filter (λ x, line_of x = n) l
                   = filter (λ x, line_of x = n)
                       (expected_under f (occurrences refs))
        end.
Proof.
  intros Hok. unfold by_file. rewrite outbyfile_collect_occurrences.
  destruct (foldlM_outbyfile_add (occurrences refs) [] Hok)
    as (out & Hfold & Hnd & Hall & Hget); [constructor|constructor|].
  rewrite Hfold. cbn [mbind option_bind].
  rewrite mapM_sorted_by_line by done.
  eexists. split; [done|]. split; [by rewrite keys_fmap_values|].
  intros f. rewrite get_fmap_values, Hget. cbn [PyDict.get default app].
  destruct (decide (expected_under f (occurrences refs) = [])) as [He|He].
  - done.
  - cbn [fmap option_fmap option_map]. split; [done|]. split; [|split].
    + apply stable_sort_Permutation.
    + eapply StronglySorted_weaken;
        [|apply stable_sort_sorted;
          [apply line_of_leb_total | apply line_of_leb_trans]].
      intros a b. unfold line_of_leb. lia.
    + intros n. apply stable_sort_filter.
      intros a b Ha Hb. unfold line_of_leb. rewrite Ha, Hb. lia.
Qed.

Lemma by_file_view_witness :
  let refs := [(Some "VWXYZ-67890",
                [sample_occurrence "lib/zlog.c" 57 1;
                 sample_occurrence "lib/vty.c" 12 2]);
               (Some "ABCDE-12345",
                [sample_occurrence "lib/zlog.c" 42 3;
                 sample_occurrence "lib/zlog.c" 57 4])] in
  ∃ outbyfile, by_file refs = Some outbyfile
    ∧ NoDup (PyDict.keys outbyfile)
    ∧ match PyDict.get (JStr "lib/zlog.c") outbyfile with
      | None => False
      | Some l => StronglySorted (λ a b, line_of a ≤ line_of b) l
      end.
Proof.
  intros refs. destruct (by_file_view refs) as (outbyfile & Hby & Hnd & Hview).
  - unfold refs, occurrences, sample_occurrence. cbn [fmap list_fmap snd concat app].
    repeat constructor; eexists _, _, _;
      (split; [reflexivity|split; vm_compute; reflexivity]).
  - exists outbyfile. split; [exact Hby|]. split; [exact Hnd|].
    specialize (Hview (JStr "lib/zlog.c")).
    destruct (PyDict.get (JStr "lib/zlog.c") outbyfile) as [l|].
    + exact (proj1 (proj2 (proj2 Hview))).
    + vm_compute in Hview. discriminate Hview.
Defined.

(** The view of a small store: under "lib/zlog.c" line 42 comes first, and
    the two occurrences of line 57 stay in the order [refs] has them. *)
Example by_file_sample :
  by_file [(Some "VWXYZ-67890",
            [sample_occurrence "lib/zlog.c" 57 1;
             sample_occurrence "lib/vty.c" 12 2]);
           (Some "ABCDE-12345",
            [sample_occurrence "lib/zlog.c" 42 3;
             sample_occurrence "lib/zlog.c" 57 4])]
  = Some [(JStr "lib/zlog.c",
           [JObj (<["k" := JNum 3]> (<["line" := JNum 42]> ∅));
            JObj (<["k" := JNum 1]> (<["line" := JNum 57]> ∅));
            JObj (<["k" := JNum 4]> (<["line" := JNum 57]> ∅))]);
          (JStr "lib/vty.c",
           [JObj (<["k" := JNum 2]> (<["line" := JNum 12]> ∅))])].
Proof. vm_compute. reflexivity. Qed.

(** * Further properties of the code *)

(** ** [load_json]: what a merge keeps *)

Lemma keys_load_json_entry d u items :
  PyDict.keys (load_json_entry d (u, items))
  = if decide (Some u ∈ PyDict.keys d) then PyDict.keys d
    else PyDict.keys d ++ [Some u].
Proof.
  unfold load_json_entry, PyDict.setdefault.
  destruct (PyDict.get (Some u) d) as [l|] eqn:Hg.
  - rewrite keys_set. destruct (decide (Some u ∈ PyDict.keys d)) as [|Hn]; [done|].
    apply get_None_keys in Hn. congruence.
  - apply get_None_keys in Hg. rewrite keys_set. unfold PyDict.keys in *.
    rewrite fmap_app. cbn [fmap list_fmap fst].
    rewrite decide_True by (rewrite elem_of_app, list_elem_of_singleton; auto).
    by rewrite decide_False.
Qed.

Lemma keys_foldl_load_json_entry es : ∀ d,
  PyDict.keys d `prefix_of` PyDict.keys (foldl load_json_entry d es).
Proof.
  induction es as [|[u items] es IH]; intros d; cbn [foldl]; [done|].
  etrans; [|apply IH]. rewrite keys_load_json_entry.
  case_decide; [done|]. by apply prefix_app_r.
Qed.

Lemma NoDup_keys_load_json_entry d e :
  NoDup (PyDict.keys d) → NoDup (PyDict.keys (load_json_entry d e)).
Proof.
  destruct e as [u items]. intros Hnd. rewrite keys_load_json_entry.
  case_decide as Hu; [done|]. apply NoDup_app.
  split_and!; [done| |apply NoDup_singleton].
  intros x Hx. rewrite list_elem_of_singleton. by intros ->.
Qed.

Lemma merge_items_NoDup l xs : NoDup l → NoDup (merge_items l xs).
Proof.
  intros Hl. destruct (merge_items_spec xs l) as (new & -> & Hnd & Hmem & _).
  apply NoDup_app. split_and!; [done| |done].
  intros x Hx Hnew. by apply Hmem in Hnew as [_ ?].
Qed.

Lemma Forall_NoDup_load_json_entry d e :
  Forall (λ p, NoDup p.2) d → Forall (λ p, NoDup p.2) (load_json_entry d e).
Proof.
  destruct e as [u items]. intros Hall. unfold load_json_entry, PyDict.setdefault.
  destruct (PyDict.get (Some u) d) as [l|] eqn:Hg.
  - apply Forall_set; [|done]. cbn [snd]. apply merge_items_NoDup.
    apply get_Some_elem_of in Hg.
    exact (proj1 (Forall_forall _ _) Hall _ Hg).
  - apply Forall_set.
    + cbn [snd]. apply merge_items_NoDup. constructor.
    + apply Forall_app. split; [done|]. repeat constructor.
Qed.

(** X1: a merge is append-only.  The identities of the store keep their
    places and new ones follow them, and the list of an identity that was
    there is a prefix of its list after the merge. *)
Theorem load_json_append_only (S : Xrelfo) (A : document) :
  PyDict.keys (refs S) `prefix_of` PyDict.keys (refs (load_json S A))
  ∧ ∀ k, match PyDict.get k (refs S) with
         | None => True
         | Some l =>
             ∃ new, PyDict.get k (refs (load_json S A)) = Some (l ++ new)
         end.
Proof.
  split; [apply keys_foldl_load_json_entry|].
  intros k. destruct (PyDict.get k (refs S)) as [l|] eqn:Hg; [|done].
  unfold load_json. cbn [refs]. rewrite get_foldl_load_json_entry, Hg.
  destruct k as [u|]; [|exists []; by rewrite app_nil_r].
  case_decide.
  - cbn [default]. unfold id.
    destruct (merge_items_spec (items_for u (doc_refs A)) l) as (new & Heq & _).
    exists new. by rewrite Heq.
  - exists []. by rewrite app_nil_r.
Qed.

(** X2: a merge keeps the store well formed: when no identity comes twice
    and no list holds an occurrence twice, the same is true afterwards. *)
Theorem load_json_keeps_duplicate_free (S : Xrelfo) (A : document) :
  NoDup (PyDict.keys (refs S)) →
  Forall (λ p, NoDup p.2) (refs S) →
  NoDup (PyDict.keys (refs (load_json S A)))
  ∧ Forall (λ p, NoDup p.2) (refs (load_json S A)).
Proof.
  unfold load_json. cbn [refs]. generalize (refs S). clear S.
  induction (doc_refs A) as [|e es IH]; intros d Hk Hl; cbn [foldl]; [done|].
  apply IH; [by apply NoDup_keys_load_json_entry
            |by apply Forall_NoDup_load_json_entry].
Qed.

Lemma load_json_keeps_duplicate_free_witness :
  let x := sample_occurrence "lib/zlog.c" 42 1 in
  let y := sample_occurrence "lib/zlog.c" 57 2 in
  let S := {| refs := [(Some "ABCDE-12345", [x])]; rest := ∅ |} in
  let A := {| doc_refs := [("ABCDE-12345", [y; x; y]); ("VWXYZ-67890", [x; x])];
              doc_rest := ∅ |} in
  NoDup (PyDict.keys (refs (load_json S A)))
  ∧ Forall (λ p, NoDup p.2) (refs (load_json S A)).
Proof.
  intros x y S A. apply (load_json_keeps_duplicate_free S A).
  - apply (bool_decide_unpack _). vm_compute. exact I.
  - apply (bool_decide_unpack _). vm_compute. exact I.
Defined.

(** X3: a snapshot that was merged stays absorbed: merging it again after
    any other snapshot changes nothing. *)
Theorem load_json_absorbs_earlier_snapshot (S : Xrelfo) (A B : document) :
  load_json (load_json (load_json S A) B) A = load_json (load_json S A) B.
Proof.
  unfold load_json. cbn [refs rest]. f_equal.
  apply foldl_load_json_entry_covered.
  eapply Forall_impl; [apply foldl_load_json_entry_covers|].
  intros e He. by apply covers_foldl.
Qed.

(** ** [XrefLogmsg.to_dict]: failure and frame *)

(** X4: contributing a log message raises exactly when the record has no
    Detail record; otherwise it appends the descriptor to the list of the
    record's identity and leaves every other list, the order of the
    identities that were there and the rest of the store as they were. *)
Theorem XrefLogmsg_to_dict_frame
    (uidhash : string → string → Z → Z → string)
    (self : XrefLogmsg.t) (S : Xrelfo) :
  match Xref.xrefdata (XrefLogmsg.xref self) with
  | None => XrefLogmsg.to_dict uidhash self S = None
  | Some xd =>
      ∃ jsobj S',
        XrefLogmsg.jsobj self = Some jsobj
        ∧ XrefLogmsg.to_dict uidhash self S = Some S'
        ∧ rest S' = rest S
        ∧ PyDict.keys (refs S) `prefix_of` PyDict.keys (refs S')
        ∧ ∀ k, PyDict.get k (refs S')
               = if decide (k = Xrefdata.uid uidhash xd)
                 then Some (default [] (PyDict.get k (refs S)) ++ [JObj jsobj])
                 else PyDict.get k (refs S)
  end.
Proof.
  destruct (Xref.xrefdata (XrefLogmsg.xref self)) as [xd|] eqn:Hxd.
  - destruct (XrefLogmsg_to_dict_appends uidhash self xd S Hxd)
      as (jsobj & S' & Hj & Hd & Hget & Hother & Hrest).
    exists jsobj, S'. split; [done|]. split; [done|]. split; [done|]. split.
    + revert Hd. unfold XrefLogmsg.to_dict. rewrite Hj, Hxd.
      cbn [mbind option_bind]. unfold PyDict.setdefault.
      destruct (PyDict.get _ (refs S)) as [l|] eqn:Hg; intros [= <-]; cbn [refs].
      * rewrite keys_set. case_decide; [done|]. by apply prefix_app_r.
      * rewrite keys_set. unfold PyDict.keys. rewrite fmap_app.
        case_decide; [by apply prefix_app_r|].
        rewrite <- app_assoc. by apply prefix_app_r.
    + intros k. case_decide as Hk; [by subst|]. by apply Hother.
  - unfold XrefLogmsg.to_dict. rewrite Hxd.
    by destruct (XrefLogmsg.jsobj self).
Qed.


(** ** The command handlers *)

Lemma cli_descriptor_insert (S : Xrelfo) r cli name jsobj name' :
  cli_descriptor {| refs := r;
                    rest := <["cli" := JObj (<[name := JObj jsobj]> cli)]> (rest S) |}
    name'
  = if decide (name' = name) then Some jsobj
    else match cli !! name' with Some (JObj j) => Some j | _ => None end.
Proof.
  unfold cli_descriptor. cbn [rest]. rewrite lookup_insert_eq.
  case_decide as Hn; [subst; by rewrite lookup_insert_eq|].
  by rewrite lookup_insert_ne.
Qed.

Lemma cli_descriptor_setdefault (S : Xrelfo) cli name' :
  setdefault_dict "cli" (rest S) = Some cli →
  match cli !! name' with Some (JObj j) => Some j | _ => None end
  = cli_descriptor S name'.
Proof.
  unfold setdefault_dict, cli_descriptor.
  destruct (rest S !! "cli") as [[| | | |c]|]; try done; by intros [= <-].
Qed.

Lemma setdefault_dict_None k (d : gmap string json) :
  setdefault_dict k d = None ↔ ∃ v, d !! k = Some v ∧ is_dict v = false.
Proof.
  unfold setdefault_dict. destruct (d !! k) as [[| | | |o]|]; split;
    try done; try (intros _; by eexists); intros (v & [= <-] & Hv); done.
Qed.

(** X5: a command definition raises only when ['cli'] or the entry of its
    name holds something that is no dictionary.  Otherwise the descriptor
    of its name carries the definition's string, doc and location and the
    definition's own list of nodes; the attribute is the one of this
    definition, absent for 0 whatever an earlier definition had set; the
    other keys of the descriptor, the other commands, the other top-level
    keys and [refs] stay as they were. *)
Theorem CmdElement_to_dict_descriptor (self : CmdElement.t) (S : Xrelfo) :
  match CmdElement.to_dict self S with
  | None =>
      (∃ v, rest S !! "cli" = Some v ∧ is_dict v = false)
      ∨ (∃ cli v, rest S !! "cli" = Some (JObj cli)
                  ∧ cli !! CmdElement.name self = Some v ∧ is_dict v = false)
  | Some S' =>
      refs S' = refs S
      ∧ delete "cli" (rest S') = delete "cli" (rest S)
      ∧ ∃ jsobj,
          (∀ name, cli_descriptor S' name
                   = if decide (name = CmdElement.name self) then Some jsobj
                     else cli_descriptor S name)
          ∧ jsobj !! "string" = Some (JStr (CmdElement.cmd_string self))
          ∧ jsobj !! "doc" = Some (JStr (CmdElement.doc self))
          ∧ jsobj !! "nodes" = Some (JArr (CmdElement.dict_nodes self))
          ∧ jsobj !! "defun"
            = Some (JObj (origin_dict (Xref.fields (CmdElement.xref self))))
          ∧ jsobj !! "attr"
            = (if decide (CmdElement.attr self = 0) then None
               else if decide (CmdElement.attr self = 1) then Some (JStr "deprecated")
               else if decide (CmdElement.attr self = 2) then Some (JStr "hidden")
               else Some (JNum (CmdElement.attr self)))
          ∧ ∀ k, jsobj !! k
                 = if decide (k ∈ ["string"; "doc"; "attr"; "nodes"; "defun"])
                   then jsobj !! k
                   else default ∅ (cli_descriptor S (CmdElement.name self)) !! k
  end.
Proof.
  unfold CmdElement.to_dict.
  destruct (setdefault_dict "cli" (rest S)) as [cli|] eqn:Hcli;
    cbn [mbind option_bind].
  2:{ left. by apply setdefault_dict_None. }
  destruct (setdefault_dict (CmdElement.name self) cli) as [old|] eqn:Hold;
    cbn [mbind option_bind].
  2:{ apply setdefault_dict_None in Hold as (v & Hv & Hd).
      destruct (rest S !! "cli") as [[| | | |c]|] eqn:Hc;
        try (left; eexists; split; [done|done]).
      - right. unfold setdefault_dict in Hcli. rewrite Hc in Hcli.
        injection Hcli as ->. by exists cli, v.
      - unfold setdefault_dict in Hcli. rewrite Hc in Hcli.
        injection Hcli as <-. by rewrite lookup_empty in Hv. }
  cbn [refs rest]. split; [done|]. split; [apply delete_insert_eq|].
  assert (Hprev : default ∅ (cli_descriptor S (CmdElement.name self)) = old).
  { rewrite <- (cli_descriptor_setdefault S cli _ Hcli).
    unfold setdefault_dict in Hold.
    destruct (cli !! CmdElement.name self) as [[| | | |o]|]; try done;
      by injection Hold as <-. }
  eexists. split.
  { intros name. rewrite cli_descriptor_insert.
    case_decide; [done|]. by apply cli_descriptor_setdefault. }
  set (upd := <["nodes":=JArr (CmdElement.dict_nodes self)]>
                (<["attr":=CmdElement.cmd_attrs_get (CmdElement.attr self)]>
                   (<["doc":=JStr (CmdElement.doc self)]>
                      (<["string":=JStr (CmdElement.cmd_string self)]> old)))).
  assert (Hattr : upd !! "attr"
                  = Some (CmdElement.cmd_attrs_get (CmdElement.attr self)))
    by (unfold upd; by simplify_map_eq).
  assert (Hother : ∀ k v, k ≠ "attr" → k ≠ "defun" →
            (<["defun" := v]>
               (if decide (upd !! "attr" = Some JNull)
                then delete "attr" upd else upd)) !! k = upd !! k).
  { intros k v H1 H2. rewrite lookup_insert_ne by done.
    case_decide; [by rewrite lookup_delete_ne|done]. }
  split; [rewrite Hother by done; unfold upd; by simplify_map_eq|].
  split; [rewrite Hother by done; unfold upd; by simplify_map_eq|].
  split; [rewrite Hother by done; unfold upd; by simplify_map_eq|].
  split; [by rewrite lookup_insert_eq|].
  split.
  - rewrite lookup_insert_ne by done. clear Hother.
    destruct (decide (CmdElement.attr self = 0)) as [H0|H0].
    + rewrite decide_True; [apply lookup_delete_eq|].
      rewrite Hattr. unfold CmdElement.cmd_attrs_get. by rewrite decide_True.
    + assert (Hnn : CmdElement.cmd_attrs_get (CmdElement.attr self) ≠ JNull).
      { unfold CmdElement.cmd_attrs_get. rewrite decide_False by done.
        destruct (decide (CmdElement.attr self = 1)); [done|].
        by destruct (decide (CmdElement.attr self = 2)). }
      rewrite decide_False by (rewrite Hattr; congruence).
      rewrite Hattr. unfold CmdElement.cmd_attrs_get.
      rewrite decide_False by done.
      destruct (decide (CmdElement.attr self = 1)); [done|].
      by destruct (decide (CmdElement.attr self = 2)).
  - intros k.
    destruct (decide (k ∈ ["string"; "doc"; "attr"; "nodes"; "defun"]))
      as [Hk|Hk]; [done|]. rewrite Hprev.
    rewrite !not_elem_of_cons in Hk. destruct Hk as (? & ? & ? & ? & ? & _).
    rewrite Hother by done. unfold upd. by rewrite !lookup_insert_ne.
Qed.

Lemma XrefInstallElement_to_dict_refs self (S S' : Xrelfo) :
  XrefInstallElement.to_dict self S = Some S' → refs S' = refs S.
Proof.
  unfold XrefInstallElement.to_dict.
  destruct (setdefault_dict "cli" (rest S)); [|done]. cbn [mbind option_bind].
  destruct (setdefault_dict _ _); [|done]. cbn [mbind option_bind].
  destruct (setdefault_append _ _ _); [|done]. cbn [mbind option_bind].
  by intros [= <-].
Qed.

(** X6: installations are not deduplicated.  Installing the same element
    twice adds its entry twice at the end of the list of nodes; the other
    keys of the descriptor and [refs] stay as they were. *)
Theorem XrefInstallElement_to_dict_twice (self : XrefInstallElement.t)
    (S : Xrelfo) (jsobj : gmap string json) (nodes : list json) :
  cli_descriptor S (CmdElement.name (XrefInstallElement.cmd_element self))
  = Some jsobj →
  jsobj !! "nodes" = Some (JArr nodes) →
  ∃ S1 S2,
    XrefInstallElement.to_dict self S = Some S1
    ∧ XrefInstallElement.to_dict self S1 = Some S2
    ∧ cli_descriptor S2 (CmdElement.name (XrefInstallElement.cmd_element self))
      = Some (<["nodes" := JArr (nodes ++ [install_entry self; install_entry self])]>
                jsobj)
    ∧ refs S2 = refs S.
Proof.
  intros Hd Hn.
  destruct (XrefInstallElement_to_dict_nodes self S jsobj nodes Hd Hn)
    as (S1 & H1 & Hd1).
  destruct (XrefInstallElement_to_dict_nodes self S1 _ _ Hd1
              (lookup_insert_eq _ _ _)) as (S2 & H2 & Hd2).
  exists S1, S2. split; [done|]. split; [done|]. split.
  - rewrite Hd2. by rewrite insert_insert_eq, <- app_assoc.
  - rewrite (XrefInstallElement_to_dict_refs _ _ _ H2).
    apply (XrefInstallElement_to_dict_refs _ _ _ H1).
Qed.

Lemma XrefInstallElement_to_dict_twice_witness :
  ∃ S0 jsobj S1 S2,
    CmdElement.to_dict sample_defun Xrelfo_init = Some S0
    ∧ cli_descriptor S0 "show version" = Some jsobj
    ∧ XrefInstallElement.to_dict sample_install S0 = Some S1
    ∧ XrefInstallElement.to_dict sample_install S1 = Some S2
    ∧ cli_descriptor S2 "show version"
      = Some (<["nodes" := JArr [install_entry sample_install;
                                 install_entry sample_install]]> jsobj).
Proof.
  destruct (CmdElement.to_dict sample_defun Xrelfo_init) as [S0|] eqn:H0;
    [|vm_compute in H0; discriminate H0].
  destruct (CmdElement_to_dict_nodes _ _ _ H0) as (jsobj & Hd & Hn & _).
  destruct (XrefInstallElement_to_dict_twice sample_install S0 jsobj [] Hd Hn)
    as (S1 & S2 & H1 & H2 & Hd2 & _).
  exists S0, jsobj, S1, S2. repeat split; assumption.
Defined.

(** ** The loop of [load_elf] *)

(** X7: records of a kind without handler (no container) and
    thread-scheduling records contribute nothing: the loop gives the same
    result without them. *)
Theorem load_elf_ptrs_skips_other_kinds
    (uidhash : string → string → Z → Z → string)
    (ptrs : list (option container)) (S : Xrelfo) :
  load_elf_ptrs uidhash S ptrs
  = load_elf_ptrs uidhash S (filter (λ p, contributes p) ptrs).
Proof.
  unfold load_elf_ptrs. revert S.
  induction ptrs as [|p ptrs IH]; intros S; [done|].
  rewrite filter_cons. destruct (contributes p) eqn:Hp.
  - rewrite decide_True by exact I. cbn [foldlM].
    destruct p as [c|]; [|done].
    destruct (container_to_dict _ _ _); cbn [mbind option_bind]; [apply IH|done].
  - rewrite decide_False by (intros []). cbn [foldlM].
    destruct p as [[x|c|c|c]|]; try done; cbn [container_to_dict mbind option_bind];
      apply IH.
Qed.

(** X8: log-message records and command records do not interfere: a log
    message and a definition, or a log message and an installation, can be
    processed in either order, with the same store or the same failure. *)
Theorem logmsg_and_command_contributions_commute
    (uidhash : string → string → Z → Z → string)
    (m : XrefLogmsg.t) (c : CmdElement.t) (i : XrefInstallElement.t)
    (S : Xrelfo) :
  load_elf_ptrs uidhash S [Some (XrefLogmsg m); Some (CmdElement c)]
  = load_elf_ptrs uidhash S [Some (CmdElement c); Some (XrefLogmsg m)]
  ∧ load_elf_ptrs uidhash S [Some (XrefLogmsg m); Some (XrefInstallElement i)]
    = load_elf_ptrs uidhash S [Some (XrefInstallElement i); Some (XrefLogmsg m)].
Proof.
  unfold load_elf_ptrs. cbn [foldlM container_to_dict].
  unfold XrefLogmsg.to_dict, CmdElement.to_dict, XrefInstallElement.to_dict.
  destruct (XrefLogmsg.jsobj m) as [j|]; cbn [mbind option_bind].
  2:{ split.
      - destruct (setdefault_dict "cli" (rest S)); cbn [mbind option_bind]; [|done].
        by destruct (setdefault_dict _ _).
      - destruct (setdefault_dict "cli" (rest S)); cbn [mbind option_bind]; [|done].
        destruct (setdefault_dict _ _); cbn [mbind option_bind]; [|done].
        by destruct (setdefault_append _ _ _). }
  destruct (Xref.xrefdata (XrefLogmsg.xref m)) as [xd|]; cbn [mbind option_bind].
  2:{ split.
      - destruct (setdefault_dict "cli" (rest S)); cbn [mbind option_bind]; [|done].
        by destruct (setdefault_dict _ _).
      - destruct (setdefault_dict "cli" (rest S)); cbn [mbind option_bind]; [|done].
        destruct (setdefault_dict _ _); cbn [mbind option_bind]; [|done].
        by destruct (setdefault_append _ _ _). }
  destruct (PyDict.setdefault _ _ (refs S)) as [myitems refs'] eqn:Hsd.
  cbn [mbind option_bind rest refs]. split.
  - destruct (setdefault_dict "cli" (rest S)); cbn [mbind option_bind]; [|done].
    destruct (setdefault_dict _ _); cbn [mbind option_bind refs rest]; [|done].
    by rewrite Hsd.
  - destruct (setdefault_dict "cli" (rest S)); cbn [mbind option_bind]; [|done].
    destruct (setdefault_dict _ _); cbn [mbind option_bind]; [|done].
    destruct (setdefault_append _ _ _); cbn [mbind option_bind refs rest]; [|done].
    by rewrite Hsd.
Qed.

(** ** [load_elf]: a note that cannot be read *)

(** X9: once the note is found, the section is not consulted: a payload
    that does not have the length of two words raises [struct.error], also
    in a file that has the section "xref_array". *)
Theorem load_elf_table_bad_note_payload (edf : ELFDissectFile) (note : ELFNote) :
  let elf := _elffile edf in
  let w := if decide (elfclass elf = 64) then 8%nat else 4%nat in
  find_note elf "FRRouting" "XREF" = Some note →
  length (getitem elf note) ≠ (2 * w)%nat →
  load_elf_table edf = inl struct_error.
Proof.
  intros elf w Hnote Hlen. unfold load_elf_table. fold elf. rewrite Hnote.
  subst w. unfold struct_unpack2.
  destruct (decide (elfclass elf = 64)); by rewrite decide_False.
Qed.

Lemma load_elf_table_bad_note_payload_witness :
  load_elf_table
    (mk_edf (mk_elffile (λ _ _, Some (mk_note 0x2a0 0x2a8)) false 64
                        (λ _, pack_uint false 4 0x1000 ++ pack_uint false 4 0x1ff0))
            (λ _, Some (mk_section "xref_array" [])))
  = inl struct_error.
Proof.
  apply (load_elf_table_bad_note_payload _ (mk_note 0x2a0 0x2a8)).
  - reflexivity.
  - vm_compute. discriminate.
Defined.


(** ** The consistency report *)

Lemma length_remove_dups_1 {A} `{EqDecision A} (l : list A) :
  length (remove_dups l) = 1%nat ↔ ∃ s, l ≠ [] ∧ Forall (λ x, x = s) l.
Proof.
  split.
  - intros Hlen. destruct (remove_dups l) as [|s [|? ?]] eqn:Hr; try done.
    exists s. split.
    + intros ->. done.
    + apply Forall_forall. intros x Hx.
      rewrite <- elem_of_remove_dups, Hr in Hx.
      by apply list_elem_of_singleton in Hx.
  - intros (s & Hne & Hall).
    pose proof (NoDup_remove_dups l) as Hnd.
    assert (Hs : ∀ x, x ∈ remove_dups l → x = s).
    { intros x Hx. rewrite elem_of_remove_dups in Hx.
      exact (proj1 (Forall_forall _ _) Hall x Hx). }
    destruct (remove_dups l) as [|a [|b r]] eqn:Hr.
    + destruct l as [|x l]; [done|].
      assert (Hx : x ∈ remove_dups (x :: l))
        by (apply elem_of_remove_dups, list_elem_of_here).
      rewrite Hr in Hx. by apply elem_of_nil in Hx.
    + done.
    + apply NoDup_cons in Hnd as [Hab _]. destruct Hab.
      rewrite (Hs a), (Hs b);
        [apply list_elem_of_here
        |apply list_elem_of_further, list_elem_of_here
        |apply list_elem_of_here].
Qed.

(** X10: when every occurrence has a hashable ['fmtstring'], the report runs
    to its end and prints an identity exactly when its occurrences do not
    all carry one and the same format string; that includes an identity
    whose list is empty, and never one with a single occurrence. *)
Theorem report_loop_prints (refs : list (uid_t * list json)) :
  Forall (λ p, Forall (λ i, is_Some (fmtstring_of i)) p.2) refs →
  (report_loop refs).2 = true
  ∧ (report_loop refs).1
    = (filter (λ p, ¬ one_fmtstring p.2) refs).*1.
Proof.
  induction 1 as [|[k v] refs Hv Hrefs [IHok IHp]]; [done|].
  cbn [report_loop]. cbn [snd] in Hv.
  destruct (mapM fmtstring_of v) as [strs|] eqn:Hm.
  2:{ apply mapM_None in Hm. apply Exists_exists in Hm as (i & Hi & Hn).
      pose proof (proj1 (Forall_forall _ _) Hv i Hi) as [? Hs]. congruence. }
  destruct (report_loop refs) as [printed completed]. cbn [fst snd] in *.
  split; [done|]. rewrite filter_cons. cbn [snd].
  assert (Hiff : length (remove_dups strs) = 1%nat ↔ one_fmtstring v).
  { unfold one_fmtstring. rewrite length_remove_dups_1. apply mapM_Some in Hm.
    split; intros (s & Hne & Hall); exists s; split.
    - intros ->. apply Forall2_nil_inv_l in Hm. by subst.
    - clear Hne Hv. induction Hm as [|i x v strs Hi Hm IH]; [constructor|].
      apply Forall_cons in Hall as [-> Hall]. constructor; auto.
    - intros ->. apply Forall2_nil_inv_r in Hm. by subst.
    - clear Hne Hv. induction Hm as [|i x v strs Hi Hm IH]; [constructor|].
      apply Forall_cons in Hall as [Hs Hall]. constructor; [congruence|auto]. }
  destruct (decide (length (remove_dups strs) ≠ 1%nat)) as [Hne|He].
  - rewrite decide_True by (rewrite <- Hiff; done). cbn. by rewrite IHp.
  - rewrite decide_False by (rewrite <- Hiff; intros Hn; apply Hn; by apply dec_stable).
    by rewrite IHp.
Qed.

Lemma report_loop_prints_witness :
  let a := JObj (<["fmtstring" := JStr "test %d"]> ∅) in
  let b := JObj (<["fmtstring" := JStr "test %s"]> ∅) in
  let refs := [(Some "ABCDE-12345", [a; a]); (Some "FGHIJ-00000", []);
               (Some "VWXYZ-67890", [a; b])] in
  (report_loop refs).2 = true
  ∧ (report_loop refs).1
    = (filter (λ p, ¬ one_fmtstring p.2) refs).*1.
Proof.
  intros a b refs. apply (report_loop_prints refs).
  repeat constructor; by eexists.
Defined.

(** The report of a small store: the empty list and the list with two
    format strings are printed, the list with one is not. *)
Example report_loop_sample :
  report_loop
    [(Some "ABCDE-12345", [JObj (<["fmtstring" := JStr "test %d"]> ∅);
                           JObj (<["fmtstring" := JStr "test %d"]> ∅)]);
     (Some "FGHIJ-00000", []);
     (Some "VWXYZ-67890", [JObj (<["fmtstring" := JStr "test %d"]> ∅);
                           JObj (<["fmtstring" := JStr "test %s"]> ∅)])]
  = ([Some "FGHIJ-00000"; Some "VWXYZ-67890"], true).
Proof. vm_compute. reflexivity. Qed.

(** X11: an occurrence without a ['fmtstring'] key (or that is no
    dictionary) stops the report with an exception, wherever it is in
    [refs]. *)
Theorem report_loop_raises (refs : list (uid_t * list json)) :
  Exists (λ p, Exists (λ i, fmtstring_of i = None) p.2) refs →
  (report_loop refs).2 = false.
Proof.
  induction refs as [|[k v] refs IH]; intros Hex; [by apply Exists_nil in Hex|].
  cbn [report_loop]. destruct (mapM fmtstring_of v) as [strs|] eqn:Hm; [|done].
  apply Exists_cons in Hex as [Hv|Hrefs].
  - apply mapM_None in Hv. cbn [snd] in Hv. congruence.
  - destruct (report_loop refs) as [printed completed]. cbn [snd] in *. auto.
Qed.

Lemma report_loop_raises_witness :
  (report_loop
     [(Some "ABCDE-12345", [JObj (<["fmtstring" := JStr "test %d"]> ∅)]);
      (Some "VWXYZ-67890", [sample_occurrence "lib/zlog.c" 42 1])]).2
  = false.
Proof.
  apply report_loop_raises. apply Exists_cons_tl, Exists_cons_hd.
  apply Exists_cons_hd. reflexivity.
Defined.

(** ** The by-file view: occurrences that cannot be filed *)

Lemma foldlM_None_at {A B} (f : A → B → option A) l :
  Exists (λ x, ∀ a, f a x = None) l → ∀ a, foldlM f a l = None.
Proof.
  induction 1 as [x l Hx|x l Hl IH]; intros a; cbn [foldlM].
  - by rewrite Hx.
  - destruct (f a x); cbn [mbind option_bind]; [apply IH|done].
Qed.

Lemma Exists_set_grow {K V} `{EqDecision K} (P : V → Prop) k v old
    (d : list (K * V)) :
  PyDict.get k d = Some old → (P old → P v) →
  Exists (λ e, P e.2) d → Exists (λ e, P e.2) (PyDict.set k v d).
Proof.
  intros Hg Hmono. induction d as [|[k' v'] d IH]; cbn [PyDict.set PyDict.get] in *;
    [by intros ?%Exists_nil|].
  destruct (decide (k = k')) as [->|Hne].
  - injection Hg as ->. intros [Hh|Ht]%Exists_cons.
    + apply Exists_cons_hd. auto.
    + by apply Exists_cons_tl.
  - intros [Hh|Ht]%Exists_cons.
    + by apply Exists_cons_hd.
    + apply Exists_cons_tl. auto.
Qed.

Lemma Exists_set_here {K V} `{EqDecision K} (P : V → Prop) k v
    (d : list (K * V)) :
  P v → Exists (λ e, P e.2) (PyDict.set k v d).
Proof.
  intros Hv. induction d as [|[k' v'] d IH]; cbn [PyDict.set].
  - by apply Exists_cons_hd.
  - destruct (decide (k = k')); [by apply Exists_cons_hd|by apply Exists_cons_tl].
Qed.

Lemma outbyfile_add_holds out loc out' x :
  outbyfile_add out loc = Some out' →
  (x = strip_file loc ∨ Exists (λ e, x ∈ e.2) out) →
  Exists (λ e, x ∈ e.2) out'.
Proof.
  unfold outbyfile_add. destruct loc as [| | | |m]; try done.
  destruct (m !! "file") as [f|]; cbn [mbind option_bind]; [|done].
  destruct (hashable f); [|done]. unfold PyDict.setdefault.
  destruct (PyDict.get f out) as [l|] eqn:Hg; intros [= <-] [->|Hex].
  - apply (Exists_set_here (λ l, strip_file (JObj m) ∈ l)). cbn beta.
    apply elem_of_app. right. apply list_elem_of_here.
  - eapply (Exists_set_grow (λ l, x ∈ l)); [done| |done].
    rewrite elem_of_app. auto.
  - apply (Exists_set_here (λ l, strip_file (JObj m) ∈ l)). cbn beta.
    apply list_elem_of_here.
  - eapply (Exists_set_grow (λ l, x ∈ l) _ _ []).
    + rewrite get_app, Hg. cbn [PyDict.get]. by rewrite decide_True.
    + by intros ?%elem_of_nil.
    + apply Exists_app. auto.
Qed.

Lemma foldlM_outbyfile_add_holds locs : ∀ out out' x,
  foldlM outbyfile_add out locs = Some out' →
  (x ∈ strip_file <$> locs ∨ Exists (λ e, x ∈ e.2) out) →
  Exists (λ e, x ∈ e.2) out'.
Proof.
  induction locs as [|loc locs IH]; intros out out' x; cbn [foldlM].
  - intros [= <-] [Hin|Hex]; [by apply elem_of_nil in Hin|done].
  - destruct (outbyfile_add out loc) as [out1|] eqn:Hadd;
      cbn [mbind option_bind]; [|done].
    intros Hfold Hx. apply (IH out1 out' x Hfold).
    cbn [fmap list_fmap] in Hx. rewrite elem_of_cons in Hx.
    destruct Hx as [[->|Hin]|Hex]; [right|by left|right].
    + eapply outbyfile_add_holds; [done|by left].
    + eapply outbyfile_add_holds; [done|by right].
Qed.

(** X12: an occurrence that is no dictionary, or has no ['file'] key, or
    has no ['line'] key, makes the construction of the by-file view raise,
    whatever the other occurrences are. *)
Theorem by_file_raises (refs : list (uid_t * list json)) :
  Exists (λ x, file_of x = None ∨ ∃ m, x = JObj m ∧ m !! "line" = None)
    (occurrences refs) →
  by_file refs = None.
Proof.
  intros Hex. unfold by_file. rewrite outbyfile_collect_occurrences.
  destruct (foldlM outbyfile_add [] (occurrences refs)) as [out|] eqn:Hfold;
    cbn [mbind option_bind]; [|done].
  apply Exists_exists in Hex as (x & Hx & [Hfile|(m & -> & Hline)]).
  - rewrite foldlM_None_at in Hfold; [done|].
    apply Exists_exists. exists x. split; [done|]. intros a.
    unfold outbyfile_add. destruct x as [| | | |m]; try done.
    cbn [file_of] in Hfile. by rewrite Hfile.
  - apply mapM_None. 
    pose proof (foldlM_outbyfile_add_holds _ _ _ (strip_file (JObj m)) Hfold)
      as Hin.
    apply Exists_exists in Hin as ([k l] & Hkl & Hl).
    2:{ left. by apply list_elem_of_fmap_2. }
    apply Exists_exists. exists (k, l). split; [done|].
    cbn [snd] in Hl. unfold sorted_by_line.
    assert (Hm : mapM line_key l = None).
    { apply mapM_None, Exists_exists. eexists. split; [exact Hl|].
      cbn [strip_file line_key]. by rewrite lookup_delete_ne, Hline. }
    by rewrite Hm.
Qed.

Lemma by_file_raises_witness :
  by_file [(Some "ABCDE-12345",
            [sample_occurrence "lib/zlog.c" 42 1;
             JObj (<["line" := JNum 7]> ∅)])]
  = None.
Proof.
  apply by_file_raises. apply Exists_cons_tl, Exists_cons_hd. left. reflexivity.
Defined.

(** ** The primary output does not depend on insertion order *)

Lemma string_leb_trans a : ∀ b c,
  String.leb a b = true → String.leb b c = true → String.leb a c = true.
Proof.
  unfold String.leb.
  induction a as [|x a IH]; intros [|y b] [|z c]; cbn [String.compare];
    try done.
  unfold Ascii.compare.
  destruct (N.compare_spec (Ascii.N_of_ascii x) (Ascii.N_of_ascii y)) as [Hxy|Hxy|Hxy];
    destruct (N.compare_spec (Ascii.N_of_ascii y) (Ascii.N_of_ascii z)) as [Hyz|Hyz|Hyz];
    try done.
  - rewrite Hxy, Hyz, N.compare_refl. apply IH.
  - intros _ _. rewrite Hxy. by rewrite (proj2 (N.compare_lt_iff _ _) Hyz).
  - intros _ _. rewrite <- Hyz. by rewrite (proj2 (N.compare_lt_iff _ _) Hxy).
  - intros _ _.
    by rewrite (proj2 (N.compare_lt_iff _ _) (N.lt_trans _ _ _ Hxy Hyz)).
Qed.

Lemma key_leb_total a b : key_leb a b = false → key_leb b a = true.
Proof.
  unfold key_leb. destruct (String.leb_total a.1 b.1) as [H|H]; congruence.
Qed.

Lemma key_leb_trans a b c :
  key_leb a b = true → key_leb b c = true → key_leb a c = true.
Proof. unfold key_leb. apply string_leb_trans. Qed.

Lemma NoDup_fst_inj {A B} (l : list (A * B)) x y :
  NoDup l.*1 → x ∈ l → y ∈ l → x.1 = y.1 → x = y.
Proof.
  induction l as [|e l IH]; cbn [fmap list_fmap]; [by intros _ ?%elem_of_nil|].
  rewrite NoDup_cons. intros [He Hnd] Hx Hy Hxy.
  apply elem_of_cons in Hx as [->|Hx]; apply elem_of_cons in Hy as [->|Hy].
  - done.
  - destruct He. rewrite Hxy. by apply list_elem_of_fmap_2.
  - destruct He. rewrite <- Hxy. by apply list_elem_of_fmap_2.
  - by apply IH.
Qed.

Lemma NoDup_dumped_keys (d : list (uid_t * list json)) :
  ¬ (None ∈ PyDict.keys d ∧ (2 ≤ length d)%nat) →
  NoDup (PyDict.keys d) →
  NoDup (prod_map dump_key id <$> d).*1.
Proof.
  intros Hcond Hnd. destruct (decide (None ∈ PyDict.keys d)) as [Hin|Hnin].
  - destruct d as [|e [|e' d]].
    + apply NoDup_nil_2.
    + cbn [fmap list_fmap]. apply NoDup_singleton.
    + destruct Hcond. split; [done|]. cbn [length]. lia.
  - apply (NoDup_fmap_1 Some). by rewrite dumped_keys.
Qed.

(** X13: the primary output is the same for two stores that hold the same
    items under [refs], in whatever order they were inserted, and the same
    other keys: either both cannot be written, or both give the same
    document, with the identities in ascending order. *)
Theorem json_dump_order_independent (S1 S2 : Xrelfo) :
  NoDup (PyDict.keys (refs S1)) →
  refs S1 ≡ₚ refs S2 →
  rest S1 = rest S2 →
  json_dump S1 = json_dump S2
  ∧ match json_dump S1 with
    | None => True
    | Some data =>
        StronglySorted (λ a b, String.leb a.1 b.1 = true) (doc_refs data)
    end.
Proof.
  intros Hnd Hperm Hrest. unfold json_dump.
  assert (Hnd2 : NoDup (PyDict.keys (refs S2))).
  { unfold PyDict.keys in *. by rewrite <- Hperm. }
  assert (Hcond : (None ∈ PyDict.keys (refs S1) ∧ (2 ≤ length (refs S1))%nat)
                  ↔ (None ∈ PyDict.keys (refs S2) ∧ (2 ≤ length (refs S2))%nat)).
  { unfold PyDict.keys. by rewrite Hperm. }
  destruct (decide (None ∈ PyDict.keys (refs S1) ∧ _)) as [H1|H1].
  - rewrite decide_True by (by apply Hcond). done.
  - rewrite decide_False by (by rewrite <- Hcond). split.
    + rewrite Hrest. do 2 f_equal.
      apply (StronglySorted_unique_strong (λ a b, key_leb a b = true)).
      * intros x1 x2 Hx1 Hx2 H12 H21.
        rewrite stable_sort_Permutation in Hx1, Hx2.
        apply (NoDup_fst_inj (prod_map dump_key id <$> refs S1)).
        -- by apply NoDup_dumped_keys.
        -- done.
        -- by rewrite Hperm.
        -- by apply String.leb_antisym.
      * apply stable_sort_sorted; [apply key_leb_total|apply key_leb_trans].
      * apply stable_sort_sorted; [apply key_leb_total|apply key_leb_trans].
      * rewrite !stable_sort_Permutation. by rewrite Hperm.
    + cbn [doc_refs].
      apply (stable_sort_sorted key_leb); [apply key_leb_total|apply key_leb_trans].
Qed.

Lemma json_dump_order_independent_witness :
  let x := sample_occurrence "lib/zlog.c" 42 1 in
  let y := sample_occurrence "lib/zlog.c" 57 2 in
  json_dump {| refs := [(Some "VWXYZ-67890", [x; y]); (Some "ABCDE-12345", [y])];
               rest := ∅ |}
  = json_dump {| refs := [(Some "ABCDE-12345", [y]); (Some "VWXYZ-67890", [x; y])];
                 rest := ∅ |}.
Proof.
  intros x y. apply json_dump_order_independent.
  - apply (bool_decide_unpack _). vm_compute. exact I.
  - apply Permutation_swap.
  - reflexivity.
Defined.


(** ** Regular expressions: the matcher finds what matches *)

Lemma nullable_spec r : nullable r = true ↔ matches r [].
Proof.
  induction r as [| |p|r1 IH1 r2 IH2|r1 IH1 r2 IH2|r IH|r IH]; cbn [nullable].
  - split; [done|]. inversion 1.
  - split; [constructor|done].
  - split; [done|]. inversion 1.
  - rewrite andb_true_iff, IH1, IH2. split.
    + intros [H1 H2]. exact (matches_Cat _ _ [] [] H1 H2).
    + inversion 1 as [| |? ? w1 w2 H1 H2 Hr Hw| | | | | |]; subst.
      apply app_eq_nil in Hw as [-> ->]. done.
  - rewrite orb_true_iff, IH1, IH2. split.
    + intros [H|H]; [by apply matches_Alt_l|by apply matches_Alt_r].
    + inversion 1; subst; auto.
  - split; [constructor|done].
  - rewrite IH. split; [by apply matches_Plus_one|].
    inversion 1 as [| | | | | | |? ? H1|? w1 w2 H1 H2 Hr Hw]; subst; [done|].
    apply app_eq_nil in Hw as [-> ->]. done.
Qed.

Lemma matches_Plus_cons r c w :
  (∀ w', matches r (c :: w') → matches (deriv c r) w') →
  matches (Plus r) (c :: w) → matches (Cat (deriv c r) (Opt (Plus r))) w.
Proof.
  intros Hd H. remember (Plus r) as pr eqn:Hpr. remember (c :: w) as cw eqn:Hcw.
  revert w Hcw.
  induction H as [| | | | | | |r' w0 H0|r' w1 w2 H1 _ H2 IH2]; try done;
    injection Hpr as ->; intros w Hcw.
  - subst w0. rewrite <- (app_nil_r w).
    apply matches_Cat; [by apply Hd|constructor].
  - destruct w1 as [|c' w1]; cbn [app] in Hcw.
    + by apply IH2.
    + injection Hcw as -> <-. apply matches_Cat; [by apply Hd|].
      by apply matches_Opt_some.
Qed.

Lemma deriv_spec c r : ∀ w, matches (deriv c r) w ↔ matches r (c :: w).
Proof.
  induction r as [| |p|r1 IH1 r2 IH2|r1 IH1 r2 IH2|r IH|r IH]; intros w;
    cbn [deriv].
  - split; inversion 1.
  - split; inversion 1.
  - split.
    + destruct (p c) eqn:Hp; inversion 1; subst. by constructor.
    + inversion 1; subst. rewrite H2. constructor.
  - split.
    + inversion 1 as [| | |? ? ? Hl|? ? ? Hr| | | |]; subst.
      * inversion Hl as [| |? ? w1 w2 H1 H2| | | | | |]; subst.
        apply IH1 in H1. exact (matches_Cat _ _ (c :: w1) w2 H1 H2).
      * destruct (nullable r1) eqn:Hn; [|inversion Hr].
        apply nullable_spec in Hn. apply IH2 in Hr.
        exact (matches_Cat _ _ [] (c :: w) Hn Hr).
    + inversion 1 as [| |? ? w1 w2 H1 H2 Hr Hw| | | | | |]; subst.
      destruct w1 as [|c' w1]; cbn [app] in Hw.
      * subst w2. apply matches_Alt_r.
        rewrite (proj2 (nullable_spec r1) H1). by apply IH2.
      * injection Hw as -> <-. apply matches_Alt_l.
        apply matches_Cat; [by apply IH1|done].
  - split.
    + inversion 1; subst; [apply matches_Alt_l, IH1|apply matches_Alt_r, IH2];
        done.
    + inversion 1; subst; [apply matches_Alt_l, IH1|apply matches_Alt_r, IH2];
        done.
  - split.
    + intros H. apply matches_Opt_some. by apply IH.
    + inversion 1; subst. by apply IH.
  - split.
    + inversion 1 as [| |? ? w1 w2 H1 H2| | | | | |]; subst.
      apply IH in H1. inversion H2; subst.
      * rewrite app_nil_r. by apply matches_Plus_one.
      * exact (matches_Plus_more _ (c :: w1) w2 H1 H3).
    + apply matches_Plus_cons. intros w'. apply IH.
Qed.

Lemma match_prefix_spec s : ∀ r,
  match_prefix r s = true ↔ ∃ p t, s = p ++ t ∧ matches r p.
Proof.
  induction s as [|c s IH]; intros r; cbn [match_prefix];
    rewrite orb_true_iff, nullable_spec.
  - split.
    + intros [H|?]; [|done]. by exists [], [].
    + intros (p & t & Hs & Hm). symmetry in Hs.
      apply app_eq_nil in Hs as [-> ->]. by left.
  - rewrite IH. split.
    + intros [H|(p & t & -> & Hm)]; [by exists [], (c :: s)|].
      exists (c :: p), t. split; [done|]. by apply deriv_spec.
    + intros ([|c' p] & t & Hs & Hm); [by left|right].
      injection Hs as <- ->. exists p, t. split; [done|]. by apply deriv_spec.
Qed.

Lemma search_spec r s :
  search r s = true ↔ ∃ a p t, s = a ++ p ++ t ∧ matches r p.
Proof.
  induction s as [|c s IH]; cbn [search];
    rewrite orb_true_iff, match_prefix_spec.
  - split.
    + intros [(p & t & Hs & Hm)|?]; [|done]. by exists [], p, t.
    + intros (a & p & t & Hs & Hm). left. symmetry in Hs.
      apply app_eq_nil in Hs as [-> Hs]. by exists p, t.
  - rewrite IH. split.
    + intros [(p & t & Hs & Hm)|(a & p & t & -> & Hm)];
        [by exists [], p, t|by exists (c :: a), p, t].
    + intros ([|c' a] & p & t & Hs & Hm); [left; by exists p, t|right].
      injection Hs as <- ->. by exists a, p, t.
Qed.

Lemma matches_Plus_Chars p w :
  matches (Plus (Chars p)) w → ∃ c w', w = c :: w' ∧ p c = true.
Proof.
  intros H. remember (Plus (Chars p)) as r eqn:Hr.
  induction H as [| | | | | | |r' w0 H0|r' w1 w2 H1 _ H2 _]; try done;
    injection Hr as ->.
  - inversion H0; subst. by eexists _, _.
  - inversion H1; subst. by eexists _, _.
Qed.

Lemma matches_lit_nocase_list l : ∀ w,
  matches (foldr (λ x r, Cat (Chars (λ c, Ascii.eqb (ascii_lower c)
                                            (ascii_lower x))) r) Eps l) w
  ↔ ascii_lower <$> w = ascii_lower <$> l.
Proof.
  induction l as [|x l IH]; intros w; cbn [foldr fmap list_fmap].
  - split.
    + inversion 1. done.
    + intros Hw%fmap_nil_inv. subst w. constructor.
  - split.
    + inversion 1 as [| |? ? w1 w2 H1 H2| | | | | |]; subst.
      inversion H1 as [|? c Hc| | | | | | |]; subst.
      apply Ascii.eqb_eq in Hc. apply IH in H2.
      cbn [app fmap list_fmap]. by rewrite Hc, H2.
    + destruct w as [|c w]; [done|]. cbn [fmap list_fmap]. intros [= Hc Hw].
      apply (matches_Cat _ _ [c] w).
      * constructor. by apply Ascii.eqb_eq.
      * by apply IH.
Qed.

Lemma rex_tab_newline_spec s :
  rex_search rex_tab_newline s = true
  ↔ Exists (λ c, c = chr_newline ∨ c = chr_tab) (String.list_ascii_of_string s).
Proof.
  unfold rex_search, rex_tab_newline. cbn [anchored body].
  rewrite search_spec, Exists_exists. split.
  - intros (a & p & t & Hs & Hm).
    apply matches_Plus_Chars in Hm as (c & w' & -> & Hc).
    exists c. split; [rewrite Hs, !elem_of_app, elem_of_cons; auto|].
    unfold is_tab_or_newline in Hc.
    apply orb_true_iff in Hc as [Hc|Hc]; apply Ascii.eqb_eq in Hc; auto.
  - intros (c & Hin & Hc). apply list_elem_of_split in Hin as (a & t & Hs).
    exists a, [c], t. split; [done|]. apply matches_Plus_one. constructor.
    unfold is_tab_or_newline. apply orb_true_iff.
    destruct Hc as [-> | ->]; [left|right]; apply Ascii.eqb_refl.
Qed.

Lemma fmap_take_prefix {A B} (f : A → B) (w t : list A) (l : list B) :
  f <$> w = l → f <$> take (length l) (w ++ t) = l.
Proof.
  intros <-. rewrite length_fmap, take_app_length. done.
Qed.

Lemma rex_severity_spec s :
  rex_search rex_severity s = true
  ↔ starts_with_nocase "warn" s ∨ starts_with_nocase "error" s.
Proof.
  unfold rex_search, rex_severity, starts_with_nocase. cbn [anchored body].
  rewrite match_prefix_spec. unfold lit_nocase.
  set (cs := String.list_ascii_of_string s). split.
  - intros (p & t & Hs & Hm).
    inversion Hm as [| |? ? w1 w2 H1 _| | | | | |]; subst.
    inversion H1 as [| | |? ? ? Hw|? ? ? He| | | |]; subst.
    + left. inversion Hw as [| |? ? wa wb Ha _| | | | | |]; subst.
      apply (matches_lit_nocase_list (String.list_ascii_of_string "warn")) in Ha.
      rewrite Hs, <- !app_assoc.
      change (String.length "warn")
        with (length (ascii_lower <$> String.list_ascii_of_string "warn")).
      by apply (fmap_take_prefix ascii_lower wa).
    + right.
      apply (matches_lit_nocase_list (String.list_ascii_of_string "error")) in He.
      rewrite Hs, <- app_assoc.
      change (String.length "error")
        with (length (ascii_lower <$> String.list_ascii_of_string "error")).
      by apply (fmap_take_prefix ascii_lower w1).
  - intros [H|H].
    + exists (take 4 cs), (drop 4 cs). split; [by rewrite take_drop|].
      rewrite <- (app_nil_r (take 4 cs)). apply matches_Cat; [|constructor].
      apply matches_Alt_l. rewrite <- (app_nil_r (take 4 cs)).
      apply matches_Cat; [|constructor].
      by apply (matches_lit_nocase_list (String.list_ascii_of_string "warn")).
    + exists (take 5 cs), (drop 5 cs). split; [by rewrite take_drop|].
      rewrite <- (app_nil_r (take 5 cs)). apply matches_Cat; [|constructor].
      apply matches_Alt_r.
      by apply (matches_lit_nocase_list (String.list_ascii_of_string "error")).
Qed.

(** X14: without [-Wlog-format] a log message has no finding.  With it, the
    record gets the tab-or-newline error exactly when its format string
    holds a tab or a line feed, and after it the severity warning exactly
    when the format string starts with "warn" or "error", letter case
    ignored; both findings carry the file and line of the record, on a
    terminal or not. *)
Theorem XrefLogmsg_check_findings
    (excerpt : bool → pattern → string → string)
    (self : XrefLogmsg.t) (isatty : bool) :
  let fmtstring := XrefLogmsg.fmtstring self in
  let finding rex msg :=
    _warn_fmt (Xref.fields (XrefLogmsg.xref self))
      (msg +:+ ": " +:+ String chr_quote EmptyString
         +:+ excerpt isatty rex fmtstring +:+ String chr_quote EmptyString) in
  XrefLogmsg_check excerpt self false isatty = []
  ∧ XrefLogmsg_check excerpt self true isatty
    = (if decide (Exists (λ c, c = chr_newline ∨ c = chr_tab)
                    (String.list_ascii_of_string fmtstring))
       then [finding rex_tab_newline "error: log message contains tab or newline"]
       else [])
      ++ (if decide (starts_with_nocase "warn" fmtstring
                     ∨ starts_with_nocase "error" fmtstring)
          then [finding rex_severity "warning: log message starts with severity"]
          else [])
  ∧ Forall (λ f, f.1 = (file (Xref.fields (XrefLogmsg.xref self)),
                        line (Xref.fields (XrefLogmsg.xref self))))
      (XrefLogmsg_check excerpt self true isatty).
Proof.
  intros fmtstring finding. split; [done|].
  assert (Heq : XrefLogmsg_check excerpt self true isatty
    = (if decide (Exists (λ c, c = chr_newline ∨ c = chr_tab)
                    (String.list_ascii_of_string fmtstring))
       then [finding rex_tab_newline "error: log message contains tab or newline"]
       else [])
      ++ (if decide (starts_with_nocase "warn" fmtstring
                     ∨ starts_with_nocase "error" fmtstring)
          then [finding rex_severity "warning: log message starts with severity"]
          else [])).
  { unfold XrefLogmsg_check, XrefLogmsg_regexes. cbn [omap list_omap].
    fold fmtstring.
    pose proof (rex_tab_newline_spec fmtstring) as H1.
    pose proof (rex_severity_spec fmtstring) as H2.
    destruct (rex_search rex_tab_newline fmtstring);
      destruct (rex_search rex_severity fmtstring);
      repeat match goal with
      | |- context [decide ?P] =>
          first [rewrite (decide_True (P := P)) by (by apply H1 || by apply H2)
                |rewrite (decide_False (P := P))
                   by (intros ?%H1 || intros ?%H2; done)]
      end; done. }
  split; [exact Heq|]. rewrite Heq.
  repeat case_decide; repeat constructor.
Qed.

(** ** The order of the diagnostics *)

Lemma string_ltb_leb a b : String.ltb a b = negb (String.leb b a).
Proof.
  unfold String.ltb, String.leb. rewrite (String.compare_antisym b a).
  by destruct (String.compare a b).
Qed.

Lemma finding_leb_eq a b :
  finding_leb a b
  = if decide (a.1.1 = b.1.1) then
      if decide (a.1.2 = b.1.2) then String.leb a.2 b.2 else a.1.2 <=? b.1.2
    else String.leb a.1.1 b.1.1.
Proof.
  unfold finding_leb, finding_ltb.
  destruct (decide (a.1.1 = b.1.1)) as [Hf|Hf].
  - rewrite decide_True by done. destruct (decide (a.1.2 = b.1.2)) as [Hl|Hl].
    + rewrite decide_True by done. by rewrite string_ltb_leb, negb_involutive.
    + rewrite decide_False by done. lia.
  - rewrite decide_False by done. by rewrite string_ltb_leb, negb_involutive.
Qed.

Lemma finding_leb_total a b : finding_leb a b = false → finding_leb b a = true.
Proof.
  rewrite !finding_leb_eq.
  destruct (decide (a.1.1 = b.1.1)) as [Hf|Hf].
  - rewrite (decide_True (P := b.1.1 = a.1.1)) by congruence.
    destruct (decide (a.1.2 = b.1.2)) as [Hl|Hl].
    + rewrite (decide_True (P := b.1.2 = a.1.2)) by congruence. intros H.
      destruct (String.leb_total a.2 b.2); congruence.
    + rewrite (decide_False (P := b.1.2 = a.1.2)) by congruence. lia.
  - rewrite (decide_False (P := b.1.1 = a.1.1)) by congruence. intros H.
    destruct (String.leb_total a.1.1 b.1.1); congruence.
Qed.

Lemma finding_leb_trans a b c :
  finding_leb a b = true → finding_leb b c = true → finding_leb a c = true.
Proof.
  rewrite !finding_leb_eq.
  destruct (decide (a.1.1 = b.1.1)) as [Hab|Hab],
           (decide (b.1.1 = c.1.1)) as [Hbc|Hbc].
  - rewrite (decide_True (P := a.1.1 = c.1.1)) by congruence.
    destruct (decide (a.1.2 = b.1.2)) as [Lab|Lab],
             (decide (b.1.2 = c.1.2)) as [Lbc|Lbc].
    + rewrite (decide_True (P := a.1.2 = c.1.2)) by congruence.
      apply string_leb_trans.
    + rewrite (decide_False (P := a.1.2 = c.1.2)) by congruence. lia.
    + rewrite (decide_False (P := a.1.2 = c.1.2)) by congruence. lia.
    + intros H1 H2. rewrite (decide_False (P := a.1.2 = c.1.2)) by lia. lia.
  - rewrite (decide_False (P := a.1.1 = c.1.1)) by congruence.
    intros _. by rewrite Hab.
  - rewrite (decide_False (P := a.1.1 = c.1.1)) by congruence.
    intros H _. by rewrite <- Hbc.
  - intros H1 H2. destruct (decide (a.1.1 = c.1.1)) as [Hac|Hac].
    + destruct Hbc. rewrite Hac in H1. by apply String.leb_antisym.
    + by eapply string_leb_trans.
Qed.

(** X15: the diagnostics are written in the order of their location: the
    sorted list holds exactly the findings of all records, by ascending
    file name and, within a file, by ascending line. *)
Theorem sorted_checks_by_location
    (excerpt : bool → pattern → string → string)
    (_xrefs : list (option container)) (wopt isatty : bool) :
  sorted_checks excerpt _xrefs wopt isatty
  ≡ₚ Xrelfo_check excerpt _xrefs wopt isatty
  ∧ StronglySorted
      (λ a b, String.leb a.1.1 b.1.1 = true ∧ (a.1.1 = b.1.1 → a.1.2 ≤ b.1.2))
      (sorted_checks excerpt _xrefs wopt isatty).
Proof.
  unfold sorted_checks. split; [apply stable_sort_Permutation|].
  eapply StronglySorted_weaken;
    [|apply stable_sort_sorted;
      [apply finding_leb_total|apply finding_leb_trans]].
  intros a b. cbn beta. rewrite finding_leb_eq.
  destruct (decide (a.1.1 = b.1.1)) as [Hf|Hf].
  - rewrite Hf. destruct (decide (a.1.2 = b.1.2)) as [Hl|Hl]; intros H.
    + split; [|lia]. destruct (String.leb_total b.1.1 b.1.1); done.
    + split; [|lia]. destruct (String.leb_total b.1.1 b.1.1); done.
  - intros H. split; [done|]. done.
Qed.

(** ** [load_file]: the libtool indirections *)

Lemma take_until_slash_app l r :
  chr_slash ∉ l → (r = [] ∨ ∃ r', r = chr_slash :: r') →
  take_until_slash (l ++ r) = l.
Proof.
  intros Hl Hr. induction l as [|c l IH]; cbn [app take_until_slash].
  - destruct Hr as [->|(r' & ->)]; [done|].
    cbn [take_until_slash]. by rewrite Ascii.eqb_refl.
  - apply not_elem_of_cons in Hl as [Hc Hl].
    rewrite (proj2 (Ascii.eqb_neq _ _)) by congruence. by rewrite IH.
Qed.

Lemma drop_until_slash_app l r :
  chr_slash ∉ l → (r = [] ∨ ∃ r', r = chr_slash :: r') →
  drop_until_slash (l ++ r) = r.
Proof.
  intros Hl Hr. induction l as [|c l IH]; cbn [app drop_until_slash].
  - destruct Hr as [->|(r' & ->)]; [done|].
    cbn [drop_until_slash]. by rewrite Ascii.eqb_refl.
  - apply not_elem_of_cons in Hl as [Hc Hl].
    rewrite (proj2 (Ascii.eqb_neq _ _)) by congruence. by apply IH.
Qed.

Lemma drop_slashes_not_nil l c :
  c ≠ chr_slash → c ∈ l → drop_slashes l ≠ [].
Proof.
  intros Hc. induction l as [|x l IH]; [by intros ?%elem_of_nil|].
  cbn [drop_slashes]. destruct (Ascii.eqb x chr_slash) eqn:Hx; [|done].
  apply Ascii.eqb_eq in Hx. subst x.
  intros [?|?]%elem_of_cons; [congruence|auto].
Qed.

Lemma os_path_join2_after path c b :
  c ≠ chr_slash →
  match b with x :: _ => x ≠ chr_slash | [] => True end →
  os_path_join2 (path ++ [c]) b = path ++ c :: chr_slash :: b.
Proof.
  intros Hc Hb. unfold os_path_join2.
  assert (Hb' : match b with x :: _ => Ascii.eqb x chr_slash | [] => false end
                = false).
  { destruct b; [done|]. by apply Ascii.eqb_neq. }
  rewrite Hb', rev_app_distr. cbn [rev app].
  rewrite (proj2 (Ascii.eqb_neq _ _) Hc). by rewrite <- app_assoc.
Qed.

Lemma os_path_split_dir_name dir name :
  dir_prefix dir → chr_slash ∉ name →
  (os_path_split (dir ++ name)).2 = name
  ∧ ∀ x, match x with c :: _ => c ≠ chr_slash | [] => True end →
         os_path_join3 (os_path_split (dir ++ name)).1 (chars ".libs") x
         = dir ++ chars ".libs/" ++ x.
Proof.
  intros Hdir Hname. unfold os_path_split. cbn [fst snd].
  assert (Hrev : chr_slash ∉ rev name).
  { intros H. apply Hname. apply list_elem_of_In, in_rev.
    by apply list_elem_of_In. }
  assert (Hstart : rev dir = [] ∨ ∃ r', rev dir = chr_slash :: r').
  { destruct Hdir as [->|[->|(d & c & -> & _)]]; [by left|right..].
    - by exists [].
    - rewrite rev_app_distr. by eexists. }
  rewrite rev_app_distr, take_until_slash_app, drop_until_slash_app by done.
  rewrite !rev_involutive. split; [done|]. intros x Hx.
  unfold os_path_join3.
  destruct Hdir as [->|[->|(d & c & -> & Hc)]].
  - cbn [drop_slashes]. change (os_path_join2 [] (chars ".libs")) with (chars ".libs").
    change (chars ".libs") with (chars ".lib" ++ [Ascii.ascii_of_nat 115]).
    rewrite os_path_join2_after; [|done|done]. reflexivity.
  - cbn [drop_slashes]. rewrite Ascii.eqb_refl.
    change (os_path_join2 [chr_slash] (chars ".libs"))
      with ((chr_slash :: chars ".lib") ++ [Ascii.ascii_of_nat 115]).
    rewrite os_path_join2_after; [|done|done]. reflexivity.
  - destruct (drop_slashes (d ++ [c; chr_slash])) eqn:Hds.
    { exfalso. eapply (drop_slashes_not_nil _ c); [done| |done].
      rewrite elem_of_app, !elem_of_cons. auto. }
    rewrite rev_app_distr. cbn [rev app drop_slashes].
    rewrite Ascii.eqb_refl, (proj2 (Ascii.eqb_neq _ _) Hc).
    cbn [rev]. rewrite rev_involutive.
    rewrite os_path_join2_after; [|done|done].
    replace (d ++ c :: chr_slash :: chars ".libs")
      with ((d ++ c :: chr_slash :: chars ".lib") ++ [Ascii.ascii_of_nat 115])
      by (rewrite <- app_assoc; reflexivity).
    rewrite os_path_join2_after; [|done|done].
    rewrite <- !app_assoc. reflexivity.
Qed.

Lemma not_slash_head name suffix :
  chr_slash ∉ name →
  match suffix with c :: _ => c ≠ chr_slash | [] => True end →
  match name ++ suffix with c :: _ => c ≠ chr_slash | [] => True end.
Proof.
  destruct name as [|c name]; [done|]. intros Hn _ ->. apply Hn, list_elem_of_here.
Qed.

Lemma la_redirect_dir_name dir name :
  dir_prefix dir → chr_slash ∉ name →
  la_redirect (dir ++ name ++ chars ".la")
  = dir ++ chars ".libs/" ++ name ++ chars ".so".
Proof.
  intros Hdir Hname. unfold la_redirect.
  assert (Hends : endswith (dir ++ name ++ chars ".la") (chars ".la") = true).
  { unfold endswith. apply bool_decide_eq_true.
    rewrite app_assoc, length_app. cbn [chars String.list_ascii_of_string length].
    rewrite Nat.add_sub. by rewrite drop_app_length. }
  rewrite Hends.
  assert (Hname' : chr_slash ∉ name ++ chars ".la").
  { rewrite not_elem_of_app. split; [done|].
    apply (bool_decide_unpack _). vm_compute. exact I. }
  destruct (os_path_split_dir_name dir (name ++ chars ".la") Hdir Hname')
    as [Htail Hjoin].
  destruct (os_path_split (dir ++ name ++ chars ".la")) as [path tail].
  cbn [fst snd] in Htail, Hjoin. subst tail.
  rewrite length_app. cbn [chars String.list_ascii_of_string length].
  rewrite Nat.add_sub, take_app_length.
  apply Hjoin. by apply not_slash_head.
Qed.

(** X16: the libtool indirections.  For a library [dir/x.la], whatever the
    [.la] file holds and whether it exists, the file read is
    [dir/.libs/x.so]; for a wrapper script [dir/x] (it starts with [#!]) the
    file read next is [dir/.libs/x].  When that file starts with the ELF
    magic it is given to [load_elf]. *)
Theorem load_file_libtool_indirections (fuel : nat)
    (fs : list Ascii.ascii → option (list Ascii.ascii))
    (dir name script elf : list Ascii.ascii) :
  dir_prefix dir →
  chr_slash ∉ name →
  take 4 elf = Ascii.ascii_of_nat 127 :: chars "ELF" →
  (fs (dir ++ chars ".libs/" ++ name ++ chars ".so") = Some elf →
   load_file (S fuel) fs (dir ++ name ++ chars ".la")
   = calls_load_elf (dir ++ chars ".libs/" ++ name ++ chars ".so"))
  ∧ (endswith (dir ++ name) (chars ".la") = false →
     fs (dir ++ name) = Some script →
     take 2 script = chars "#!" →
     fs (dir ++ chars ".libs/" ++ name) = Some elf →
     load_file (S (S fuel)) fs (dir ++ name)
     = calls_load_elf (dir ++ chars ".libs/" ++ name)).
Proof.
  intros Hdir Hname Helf. split.
  - intros Hfs. unfold load_file. rewrite la_redirect_dir_name by done.
    cbn [load_file_loop]. rewrite Hfs. by rewrite decide_True.
  - intros Hla Hscript Hmagic Hfs. unfold load_file, la_redirect. rewrite Hla.
    cbn [load_file_loop]. rewrite Hscript.
    assert (H2 : take 2 (take 4 script) = chars "#!").
    { by rewrite take_take. }
    rewrite decide_False.
    2:{ intros H4. rewrite H4 in H2. vm_compute in H2. discriminate H2. }
    rewrite decide_True by done.
    destruct (os_path_split_dir_name dir name Hdir Hname) as [Htail Hjoin].
    destruct (os_path_split (dir ++ name)) as [path tail].
    cbn [fst snd] in Htail, Hjoin. subst tail.
    rewrite Hjoin
      by (generalize (not_slash_head name [] Hname I); by rewrite app_nil_r).
    rewrite Hfs. by rewrite decide_True.
Qed.

Lemma load_file_libtool_indirections_witness :
  load_file 1 sample_fs (chars "lib/libfrr.la")
  = calls_load_elf (chars "lib/.libs/libfrr.so")
  ∧ load_file 2 sample_fs (chars "zebra/zebra")
    = calls_load_elf (chars "zebra/.libs/zebra").
Proof.
  split.
  - apply (proj1 (load_file_libtool_indirections 0 sample_fs (chars "lib/")
                    (chars "libfrr") [] sample_elf ltac:(
                      right; right; exists (chars "li"), (Ascii.ascii_of_nat 98);
                      split; [reflexivity|vm_compute; discriminate])
                    ltac:(apply (bool_decide_unpack _); vm_compute; exact I)
                    eq_refl)).
    reflexivity.
  - apply (proj2 (load_file_libtool_indirections 0 sample_fs (chars "zebra/")
                    (chars "zebra") (chars "#! /bin/sh") sample_elf ltac:(
                      right; right; exists (chars "zebr"), (Ascii.ascii_of_nat 97);
                      split; [reflexivity|vm_compute; discriminate])
                    ltac:(apply (bool_decide_unpack _); vm_compute; exact I)
                    eq_refl)); reflexivity.
Defined.


(** ** [liveshark]: interface description blocks and packet blocks *)

Section liveshark_facts.
  Import liveshark.
  Variable R : Type.
  Variable take_frame_num : R → Z * R.
  Variable IfDesc_fresh : list IfDesc_option.
  Variable EnhancedPacket_fresh : list EnhancedPacket_option.

(** X17: an interface is described once.  The first [LiveScapy.serialize]
    for a name registers it, keeps every index already given, and yields a
    block exactly when the name was new; serializing again yields nothing and
    leaves the context as it is. *)
Theorem LiveScapy_serialize_once (ifname : string) (context : pcapng_Context R) :
  let '(blocks, context') := LiveScapy_serialize R IfDesc_fresh ifname context in
  LiveScapy_serialize R IfDesc_fresh ifname context' = ([], context')
  ∧ is_Some (ifaces context' !! ifname)
  ∧ ifaces context ⊆ ifaces context'
  ∧ ctx_rest context' = ctx_rest context
  ∧ length blocks = (if decide (is_Some (ifaces context !! ifname)) then 0 else 1)%nat
  ∧ (size (ifaces context') = size (ifaces context) + length blocks)%nat.
Proof.
  unfold liveshark.LiveScapy_serialize.
  destruct (ifaces context !! ifname) as [i|] eqn:Hi.
  - rewrite Hi. rewrite decide_True by eauto.
    split_and!; eauto; cbn; lia.
  - cbn [ifaces ctx_rest]. rewrite lookup_insert_eq.
    rewrite decide_False by (by intros [? ?]).
    split_and!; eauto.
    + by apply insert_subseteq.
    + rewrite map_size_insert_None by done. cbn. lia.
Qed.

(** X18: the index given to an interface is the position of its description
    block.  When the blocks written so far are the ones [ifaces] points at,
    they still are after [LiveScapy.serialize] has added its block. *)
Theorem LiveScapy_serialize_keeps_block_order (ifname : string)
    (context : pcapng_Context R) (written : list (option json * IfDesc)) :
  ifaces_blocks IfDesc_fresh (ifaces context) written →
  ifaces_blocks IfDesc_fresh (ifaces (LiveScapy_serialize R IfDesc_fresh ifname context).2)
                (written ++ (LiveScapy_serialize R IfDesc_fresh ifname context).1).
Proof.
  intros [Hlen Hidx]. unfold liveshark.LiveScapy_serialize.
  destruct (ifaces context !! ifname) as [i|] eqn:Hi; cbn [fst snd ifaces].
  - rewrite app_nil_r. by split.
  - split.
    + rewrite length_app, map_size_insert_None by done. cbn. lia.
    + intros n j. destruct (decide (n = ifname)) as [->|Hne].
      * rewrite lookup_insert_eq. intros [= <-]. rewrite <- Hlen.
        by rewrite list_lookup_middle.
      * rewrite lookup_insert_ne by done. intros Hj.
        apply lookup_app_l_Some. by apply Hidx.
Qed.

(** X19: a packet block points at the description block of its interface.
    [TimedScapy.serialize] fails exactly when the packet's interface has not
    been registered; otherwise it leaves [ifaces] alone, takes one frame
    number, and the interface index of the packet block is the position of
    the block describing [sniffed_on]; the block carries the packet's time
    and bytes and one comment per match. *)
Theorem TimedScapy_serialize_block (pkt : Packet) (match_for : list string)
    (context : pcapng_Context R) (written : list (option json * IfDesc)) :
  ifaces_blocks IfDesc_fresh (ifaces context) written →
  match TimedScapy_serialize R take_frame_num EnhancedPacket_fresh pkt match_for
          context with
  | None => ifaces context !! sniffed_on pkt = None
  | Some ((jsdata, epb), context') =>
      ifaces context' = ifaces context
      ∧ ctx_rest context' = (take_frame_num (ctx_rest context)).2
      ∧ ifaces context !! sniffed_on pkt = Some (epb_iface epb)
      ∧ written !! epb_iface epb = Some (ifd_block IfDesc_fresh (sniffed_on pkt))
      ∧ epb_ts epb = time_ns pkt
      ∧ epb_data epb = pkt_bytes pkt
      ∧ length (epb_options epb)
        = (length EnhancedPacket_fresh + length match_for)%nat
      ∧ ∃ m, jsdata = JObj m
             ∧ m !! "iface" = Some (JStr (sniffed_on pkt))
             ∧ m !! "frame_num"
               = Some (JNum (take_frame_num (ctx_rest context)).1)
  end.
Proof.
  intros [Hlen Hidx]. unfold liveshark.TimedScapy_serialize.
  destruct (ifaces context !! sniffed_on pkt) as [i|] eqn:Hi.
  - rewrite decide_True by eauto.
    destruct (take_frame_num (ctx_rest context)) as [frame_num rest].
    cbn [ifaces ctx_rest fst snd]. rewrite Hi. cbn.
    split_and!; try done.
    + by apply Hidx.
    + by rewrite length_app, length_fmap.
    + eexists. split; [reflexivity|]. by simplify_map_eq.
  - rewrite decide_False by (by intros [? ?]). done.
Qed.

End liveshark_facts.

(** A context with nothing registered and nothing written. *)
Lemma LiveScapy_serialize_keeps_block_order_witness :
  liveshark.ifaces_blocks []
    (liveshark.ifaces
       (liveshark.LiveScapy_serialize unit [] "r1-eth0"
          {| liveshark.ifaces := ∅; liveshark.ctx_rest := tt |}).2)
    ([] ++ (liveshark.LiveScapy_serialize unit [] "r1-eth0"
              {| liveshark.ifaces := ∅; liveshark.ctx_rest := tt |}).1).
Proof.
  apply (LiveScapy_serialize_keeps_block_order unit [] "r1-eth0"
           {| liveshark.ifaces := ∅; liveshark.ctx_rest := tt |} []).
  split; [reflexivity|]. intros n i H. cbn in H. by rewrite lookup_empty in H.
Defined.


Lemma TimedScapy_serialize_block_witness :
  match liveshark.TimedScapy_serialize nat sample_take_frame_num []
          sample_packet ["BGPOpen"] sample_context with
  | None => liveshark.ifaces sample_context !! "r1-eth0" = None
  | Some ((jsdata, epb), context') =>
      liveshark.ifaces context' = liveshark.ifaces sample_context
      ∧ liveshark.ctx_rest context' = 8%nat
      ∧ liveshark.ifaces sample_context !! "r1-eth0"
        = Some (liveshark.epb_iface epb)
      ∧ [liveshark.ifd_block [] "r1-eth0"] !! liveshark.epb_iface epb
        = Some (liveshark.ifd_block [] "r1-eth0")
      ∧ liveshark.epb_ts epb = 1000
      ∧ liveshark.epb_data epb = []
      ∧ length (liveshark.epb_options epb) = 1%nat
      ∧ ∃ m, jsdata = JObj m
             ∧ m !! "iface" = Some (JStr "r1-eth0")
             ∧ m !! "frame_num" = Some (JNum 7)
  end.
Proof.
  apply (TimedScapy_serialize_block nat sample_take_frame_num [] []
           sample_packet ["BGPOpen"] sample_context
           [liveshark.ifd_block [] "r1-eth0"]).
  split; [reflexivity|]. intros n i. cbn.
  intros [-> <-]%lookup_singleton_Some. reflexivity.
Defined.


(** ** The by-file view: lines that are no numbers *)

Lemma py_lt_never_compares k k' :
  never_compares k → py_lt k k' = None ∧ py_lt k' k = None.
Proof.
  intros [->|[d ->]]; split; by destruct k'.
Qed.

Lemma insert_by_key_length {A} (x : json * A) l l' :
  insert_by_key x l = Some l' → length l' = S (length l).
Proof.
  revert l'. induction l as [|y l IH]; intros l'; cbn [insert_by_key].
  - by intros [= <-].
  - destruct (py_lt y.1 x.1) as [[]|]; cbn [mbind option_bind]; [|by intros [= <-]|done].
    destruct (insert_by_key x l) as [l''|]; cbn [mbind option_bind]; [|done].
    intros [= <-]. cbn [length]. f_equal. by apply IH.
Qed.

Lemma sorted_by_key_length {A} (l l' : list (json * A)) :
  sorted_by_key l = Some l' → length l' = length l.
Proof.
  unfold sorted_by_key. revert l'.
  induction l as [|x l IH]; intros l'; cbn [foldr].
  - by intros [= <-].
  - destruct (foldr _ _ l) as [acc|]; cbn [mbind option_bind]; [|done].
    intros Hins%insert_by_key_length. rewrite Hins. cbn [length]. f_equal.
    by apply IH.
Qed.

Lemma sorted_by_key_never_compares {A} (l : list (json * A)) :
  (2 ≤ length l)%nat →
  Exists (λ e, never_compares e.1) l →
  sorted_by_key l = None.
Proof.
  induction l as [|x l IH]; [cbn; lia|]. intros Hlen Hex.
  change (sorted_by_key (x :: l))
    with (acc ← sorted_by_key l; insert_by_key x acc).
  destruct (sorted_by_key l) as [acc|] eqn:Hacc; cbn [mbind option_bind]; [|done].
  pose proof (sorted_by_key_length _ _ Hacc) as Hlacc.
  destruct acc as [|y acc]; [cbn in Hlen, Hlacc; lia|].
  cbn [insert_by_key].
  apply Exists_cons in Hex as [Hx|Hl].
  - by rewrite (proj2 (py_lt_never_compares _ y.1 Hx)).
  - destruct l as [|z [|z' l]].
    + by apply Exists_nil in Hl.
    + apply Exists_cons in Hl as [Hz|Hl]; [|by apply Exists_nil in Hl].
      cbn in Hacc. injection Hacc as <- <-.
      by rewrite (proj1 (py_lt_never_compares _ x.1 Hz)).
    + assert (Hno : Some (y :: acc) = None)
        by (apply IH; [cbn [length]; lia|done]).
      discriminate Hno.
Qed.

(** X20: a line that is [None] or a dictionary cannot be ordered.  A list of
    two or more occurrences that holds one makes [sorted] raise, wherever it
    is in the list and whatever the other lines are; alone in its list, an
    occurrence is returned whatever its line is, as nothing is compared. *)
Theorem sorted_by_line_never_compares (l : list json) :
  Exists (λ x, ∃ k, line_key x = Some k ∧ never_compares k) l →
  sorted_by_line l = if decide (length l = 1%nat) then Some l else None.
Proof.
  intros Hex. unfold sorted_by_line.
  destruct (decide (length l = 1%nat)) as [Hone|Hmore].
  - destruct l as [|x [|??]]; try done.
    apply Exists_cons in Hex as [(k & Hk & _)|Hex]; [|by apply Exists_nil in Hex].
    cbn. by rewrite Hk.
  - destruct (mapM line_key l) as [ks|] eqn:Hks; cbn [mbind option_bind]; [|done].
    apply mapM_Some in Hks.
    rewrite sorted_by_key_never_compares; [done| |].
    + rewrite length_zip, <- (Forall2_length _ _ _ Hks), Nat.min_id.
      destruct l as [|x [|??]]; cbn [length] in *; try lia.
      by apply Exists_nil in Hex.
    + clear Hmore. induction Hks as [|x k l ks Hk Hks IH]; [by apply Exists_nil in Hex|].
      cbn [zip zip_with]. apply Exists_cons in Hex as [(k' & Hk' & Hbad)|Hex].
      * apply Exists_cons_hd. cbn [fst]. congruence.
      * apply Exists_cons_tl. by apply IH.
Qed.

Lemma sorted_by_line_never_compares_witness :
  sorted_by_line [JObj (<["line" := JNum 3]> ∅);
                  JObj (<["line" := JNull]> ∅);
                  JObj (<["line" := JNum 1]> ∅)] = None
  ∧ sorted_by_line [JObj (<["line" := JNull]> ∅)]
    = Some [JObj (<["line" := JNull]> ∅)].
Proof.
  split.
  - apply (sorted_by_line_never_compares
             [JObj (<["line" := JNum 3]> ∅); JObj (<["line" := JNull]> ∅);
              JObj (<["line" := JNum 1]> ∅)]).
    apply Exists_cons_tl, Exists_cons_hd. exists JNull.
    split; [reflexivity|by left].
  - apply (sorted_by_line_never_compares [JObj (<["line" := JNull]> ∅)]).
    apply Exists_cons_hd. exists JNull. split; [reflexivity|by left].
Defined.

(** Lines that are strings are ordered as strings; a number and a string do
    not compare. *)
Example sorted_by_line_strings :
  sorted_by_line [JObj (<["line" := JStr "9"]> ∅);
                  JObj (<["line" := JStr "10"]> ∅)]
  = Some [JObj (<["line" := JStr "10"]> ∅); JObj (<["line" := JStr "9"]> ∅)]
  ∧ sorted_by_line [JObj (<["line" := JNum 9]> ∅);
                    JObj (<["line" := JStr "10"]> ∅)] = None.
Proof. split; vm_compute; reflexivity. Qed.
